(** * Barcode generator: identifier allocation, history store and print queue

    A shallow embedding of [src/services/storageService.ts] and of the state
    and event handlers of [src/App.tsx], with the properties of the
    specification that concern them.

    Conventions of the embedding.
    - A JavaScript string is a Rocq [string]; its characters stand for the
      UTF-16 code units below 256.
    - [Math.random()] and [Date.now()] are inputs of the handlers that call
      them.  A draw of [Math.random()] is a rational number; the arithmetic on
      it is exact (the rounding of IEEE doubles is not modelled).
    - [localStorage] is a record with one field per key the program uses and
      a schedule of faults: every access consumes one flag of the schedule
      and throws when the flag is [true].
    - [console.error] has no effect on the modelled state.
    - The presentational state ([showHistory], [activeTab]), printing,
      download and clipboard are outside the embedding. *)

From Stdlib Require Import Ascii String QArith Qround.
From stdpp Require Import base decidable option list strings gmap pretty.

Local Open Scope string_scope.
Local Open Scope list_scope.
Local Open Scope Z_scope.

(** ** Data model ([types.ts], [App.tsx] lines 12-14) *)

Inductive Format : Type := CODE128.

(** [interface BarcodeEntry]; [label?: string] is an optional field. *)
Record BarcodeEntry : Type := mkEntry {
  id : string;
  createdAt : Z;
  label : option string;
  format : Format
}.

(** [interface QueueItem extends BarcodeEntry { printId: string }].  The
    spread [{ ...entry, printId }] copies the four fields of the entry. *)
Record QueueItem : Type := mkItem {
  entry : BarcodeEntry;
  printId : string
}.

Inductive StatusType : Type := success | error.

#[global] Instance Format_eq_dec : EqDecision Format.
Proof. solve_decision. Defined.
#[global] Instance BarcodeEntry_eq_dec : EqDecision BarcodeEntry.
Proof. solve_decision. Defined.
#[global] Instance QueueItem_eq_dec : EqDecision QueueItem.
Proof. solve_decision. Defined.
#[global] Instance StatusType_eq_dec : EqDecision StatusType.
Proof. solve_decision. Defined.

(** ** Primitives of the language *)

(** [String(x)] applied to a string is the string itself. *)
Definition String_of (s : string) : string := s.

(** [Number.prototype.toString()] on an integer: its decimal numeral. *)
Definition toString (n : Z) : string := pretty n.

(** [Math.floor]. *)
Definition Math_floor (x : Q) : Z := Qfloor x.

(** White space and line terminators of ECMAScript among the code units
    below 256: TAB, LF, VT, FF, CR, SP and NBSP. *)
Definition isWhiteSpace (c : ascii) : bool :=
  let n := nat_of_ascii c in
  ((9 <=? n)%nat && (n <=? 13)%nat) || (n =? 32)%nat || (n =? 160)%nat.

Fixpoint trimStart (s : string) : string :=
  match s with
  | EmptyString => EmptyString
  | String c s' => if isWhiteSpace c then trimStart s' else s
  end.

Fixpoint trimEnd (s : string) : string :=
  match s with
  | EmptyString => EmptyString
  | String c s' =>
      match trimEnd s' with
      | EmptyString => if isWhiteSpace c then EmptyString else String c EmptyString
      | t => String c t
      end
  end.

(** [String.prototype.trim]. *)
Definition trim (s : string) : string := trimEnd (trimStart s).

(** [s || undefined]: the empty string is falsy. *)
Definition or_undefined (s : string) : option string :=
  if decide (s = "") then None else Some s.

Fixpoint allWhiteSpace (s : string) : bool :=
  match s with
  | EmptyString => true
  | String c s' => isWhiteSpace c && allWhiteSpace s'
  end.



(** ** The identifier allocator ([App.tsx] lines 55-65) *)

Definition maxAttempts : nat := 100.

(** [Math.floor(100000000 + Math.random() * 900000000).toString()] for the
    draw [r] of [Math.random()]. *)
Definition candidate (r : Q) : string :=
  toString (Math_floor (inject_Z 100000000 + r * inject_Z 900000000)%Q).

(** The loop [while (!isUnique && attempts < maxAttempts)].  [budget] is
    [maxAttempts - attempts]; [draws i] is the value of the [i]-th call of
    [Math.random()].  The result is the final [(code, isUnique, attempts)]. *)
Fixpoint probe (budget : nat) (existingIds : gset string) (draws : nat → Q)
    (attempts : nat) (code : string) : string * bool * nat :=
  match budget with
  | O => (code, false, attempts)
  | S budget' =>
      let code' := candidate (draws attempts) in
      if decide (code' ∈ existingIds)
      then probe budget' existingIds draws (S attempts) code'
      else (code', true, S attempts)
  end.

(** ** Completions and the state monad of the embedding *)

Inductive Exn : Type := DOMException | SyntaxError.

(** The completion of a JavaScript computation: a value or a thrown exception. *)
Inductive Completion (A : Type) : Type :=
| Normal (a : A)
| Throw (e : Exn).
Arguments Normal {A} a.
Arguments Throw {A} e.

Definition M (S A : Type) : Type := S → Completion A * S.

#[global] Instance M_ret {S} : MRet (M S) := λ A a s, (Normal a, s).
#[global] Instance M_bind {S} : MBind (M S) := λ A B k m s,
  match m s with
  | (Normal a, s') => k a s'
  | (Throw e, s') => (Throw e, s')
  end.

(** [try { body } catch (e) { handler }]. *)
Definition try_catch {S A} (body : M S A) (handler : Exn → M S A) : M S A :=
  λ s, match body s with
       | (Normal a, s') => (Normal a, s')
       | (Throw e, s') => handler e s'
       end.

Definition throw {S A} (e : Exn) : M S A := λ s, (Throw e, s).

Definition gets {S A} (f : S → A) : M S A := λ s, (Normal (f s), s).

Definition modify {S} (f : S → S) : M S () := λ s, (Normal (), f s).

(** ** [localStorage] *)

(** A value produced by [JSON.parse] and read by the program as an array. *)
Inductive Json (A : Type) : Type :=
| NotArray            (* null, a boolean, a number, a string or an object *)
| Arr (a : A).        (* an array *)
Arguments NotArray {A}.
Arguments Arr {A} a.

(** A stored string: [Doc v] is the text [JSON.stringify] makes of [v] (and
    [JSON.parse] reads back as [v]); [Raw s] is a string [s] that is not JSON,
    on which [JSON.parse] throws.  The empty string is [Raw ""]. *)
Inductive Text (A : Type) : Type :=
| Raw (s : string)
| Doc (v : A).
Arguments Raw {A} s.
Arguments Doc {A} v.

(** The two keys of the program.  The history is parsed into a value tested
    with [Array.isArray]; the print queue is parsed straight into the state
    of type [QueueItem[]]. *)
Record LocalStorage : Type := mkStorage {
  barcodegen_history_v1 : option (Text (Json (list BarcodeEntry)));
  barcodegen_print_queue : option (Text (list QueueItem));
  faults : list bool
}.

Inductive Key : Type → Type :=
| STORAGE_KEY : Key (Json (list BarcodeEntry))
| PRINT_QUEUE_KEY : Key (list QueueItem).

Definition slot {T} (k : Key T) (ls : LocalStorage) : option (Text T) :=
  match k in Key T return option (Text T) with
  | STORAGE_KEY => barcodegen_history_v1 ls
  | PRINT_QUEUE_KEY => barcodegen_print_queue ls
  end.

Definition put {T} (k : Key T) (v : option (Text T)) (ls : LocalStorage)
    : LocalStorage :=
  match k in Key T return option (Text T) → LocalStorage with
  | STORAGE_KEY => λ v, mkStorage v (barcodegen_print_queue ls) (faults ls)
  | PRINT_QUEUE_KEY => λ v, mkStorage (barcodegen_history_v1 ls) v (faults ls)
  end v.

(** Every access to [localStorage] consumes one flag of the schedule and
    throws when it is [true]; an empty schedule means no more faults. *)
Definition nextFault (ls : LocalStorage) : bool :=
  match faults ls with
  | true :: _ => true
  | _ => false
  end.

Definition tick (ls : LocalStorage) : LocalStorage :=
  mkStorage (barcodegen_history_v1 ls) (barcodegen_print_queue ls) (tail (faults ls)).

Definition access : M LocalStorage () := λ ls,
  (if nextFault ls then Throw DOMException else Normal (), tick ls).

Definition getItem {T} (k : Key T) : M LocalStorage (option (Text T)) :=
  access;; gets (slot k).

Definition setItem {T} (k : Key T) (v : Text T) : M LocalStorage () :=
  access;; modify (put k (Some v)).

Definition removeItem {T} (k : Key T) : M LocalStorage () :=
  access;; modify (put k None).

Definition JSON_parse {S T} (text : Text T) : M S T :=
  match text with
  | Raw _ => throw SyntaxError
  | Doc v => mret v
  end.

Definition JSON_stringify {T} (v : T) : Text T := Doc v.

(** Truthiness of the result of [getItem]: [null] and the empty string are
    falsy. *)
Definition truthy {T} (data : option (Text T)) : bool :=
  match data with
  | None => false
  | Some (Raw s) => if decide (s = "") then false else true
  | Some (Doc _) => true
  end.

(** [Array.isArray(parsed) ? parsed : []]. *)
Definition array_or_empty {A} (parsed : Json (list A)) : list A :=
  match parsed with
  | Arr l => l
  | NotArray => []
  end.

(** ** [storageService] ([storageService.ts]) *)

Definition getHistory : M LocalStorage (list BarcodeEntry) :=
  try_catch
    (data ← getItem STORAGE_KEY;
     match data with
     | Some text =>
         if truthy data
         then parsed ← JSON_parse text; mret (array_or_empty parsed)
         else mret []
     | None => mret []
     end)
    (λ _, mret []).

Definition saveEntry (entry : BarcodeEntry) : M LocalStorage () :=
  try_catch
    (history ← getHistory;
     let filtered := filter (λ e, String_of (id e) ≠ String_of (id entry)) history in
     let updated := entry :: filtered in
     setItem STORAGE_KEY (JSON_stringify (Arr updated)))
    (λ _, mret ()).

Definition deleteEntry (id0 : string) : M LocalStorage (list BarcodeEntry) :=
  try_catch
    (history ← getHistory;
     let updated := filter (λ e, String_of (id e) ≠ String_of id0) history in
     setItem STORAGE_KEY (JSON_stringify (Arr updated));;
     mret updated)
    (λ _, getHistory).

Definition clearHistory : M LocalStorage () := removeItem STORAGE_KEY.

(** ** The state of the component ([App.tsx] lines 17-24) *)

Record AppState : Type := mkApp {
  history : list BarcodeEntry;
  currentEntry : option BarcodeEntry;
  labelInput : string;
  statusMessage : option (StatusType * string);
  printQueue : list QueueItem
}.

(** The component's state, the browser's storage, and whether [printQueue]
    was set since the effect that depends on it last ran. *)
Record World : Type := mkWorld {
  app : AppState;
  localStorage : LocalStorage;
  queueSet : bool
}.

Definition initialApp : AppState := mkApp [] None "" None [].

Definition withApp (f : AppState → AppState) : M World () :=
  modify (λ w, mkWorld (f (app w)) (localStorage w) (queueSet w)).

Definition setHistory (f : list BarcodeEntry → list BarcodeEntry) : M World () :=
  withApp (λ a, mkApp (f (history a)) (currentEntry a) (labelInput a)
                      (statusMessage a) (printQueue a)).

Definition setCurrentEntry (c : option BarcodeEntry) : M World () :=
  withApp (λ a, mkApp (history a) c (labelInput a) (statusMessage a) (printQueue a)).

Definition setLabelInput (s : string) : M World () :=
  withApp (λ a, mkApp (history a) (currentEntry a) s (statusMessage a) (printQueue a)).

Definition setStatusMessage (m : option (StatusType * string)) : M World () :=
  withApp (λ a, mkApp (history a) (currentEntry a) (labelInput a) m (printQueue a)).

Definition setPrintQueue (f : list QueueItem → list QueueItem) : M World () :=
  modify (λ w,
    let a := app w in
    mkWorld (mkApp (history a) (currentEntry a) (labelInput a) (statusMessage a)
                   (f (printQueue a)))
            (localStorage w) true).

(** A call of [storageService] or of [localStorage] from the component. *)
Definition inStorage {A} (m : M LocalStorage A) : M World A := λ w,
  let '(r, ls) := m (localStorage w) in
  (r, mkWorld (app w) ls (queueSet w)).

(** [showStatus]; the timer it starts clears the message later, see the
    event [StatusTimeout]. *)
Definition showStatus (type : StatusType) (text : string) : M World () :=
  setStatusMessage (Some (type, text)).

(** ** The event handlers ([App.tsx] lines 54-136) *)

Definition generateUniqueCode (draws : nat → Q) (now : Z)
    : M World (option BarcodeEntry) :=
  st ← gets app;
  let existingIds : gset string :=
    list_to_set (map (λ h, String_of (id h)) (history st)) in
  let '(code, isUnique, attempts) := probe maxAttempts existingIds draws 0 "" in
  if negb isUnique then
    showStatus error "Critical error: Unique ID generation failed.";;
    mret None
  else
    let newEntry :=
      mkEntry code now (or_undefined (trim (labelInput st))) CODE128 in
    setCurrentEntry (Some newEntry);;
    inStorage (saveEntry newEntry);;
    setHistory (λ prev, newEntry :: prev);;
    setLabelInput "";;
    showStatus success ("Generated " +:+ code);;
    mret (Some newEntry).

(** [token] is [Math.random().toString(36).substr(2, 9)], [now] is
    [Date.now()]. *)
Definition addToPrintQueue (entry0 : option BarcodeEntry) (token : string)
    (now : Z) : M World () :=
  match entry0 with
  | None => mret ()
  | Some e =>
      st ← gets app;
      if (20 <=? length (printQueue st))%nat then
        showStatus error "Sheet is full (Max 20 per A4 page)."
      else
        let newItem := mkItem e (token +:+ toString now) in
        setPrintQueue (λ prev, prev ++ [newItem]);;
        showStatus success "Added to A4 Sheet."
  end.

Definition removeFromQueue (printId0 : string) : M World () :=
  setPrintQueue (λ prev, filter (λ item, printId item ≠ printId0) prev).

(** [confirmed] is the answer to [confirm(...)]. *)
Definition clearQueue (confirmed : bool) : M World () :=
  if confirmed then
    setPrintQueue (λ _, []);;
    showStatus success "Sheet cleared."
  else mret ().

Definition handleDelete (id0 : string) (confirmed : bool) : M World () :=
  if negb confirmed then mret () else
  st ← gets app;
  updated ← inStorage (deleteEntry id0);
  setHistory (λ _, updated);;
  match currentEntry st with
  | Some c =>
      if decide (String_of (id c) = String_of id0)
      then setCurrentEntry (head updated)
      else mret ()
  | None => mret ()
  end;;
  setPrintQueue (λ prev,
    filter (λ item, String_of (id (entry item)) ≠ String_of id0) prev);;
  showStatus success "Barcode deleted.".

(** ** Effects ([App.tsx] lines 27-47) *)

(** The effect run once after the first render. *)
Definition loadEffect : M World () :=
  loadedHistory ← inStorage getHistory;
  setHistory (λ _, loadedHistory);;
  (if (0 <? length loadedHistory)%nat
   then setCurrentEntry (head loadedHistory) else mret ());;
  savedQueue ← inStorage (getItem PRINT_QUEUE_KEY);
  match savedQueue with
  | Some text =>
      if truthy savedQueue then
        try_catch (parsed ← JSON_parse text; setPrintQueue (λ _, parsed))
                  (λ _, mret ())
      else mret ()
  | None => mret ()
  end.

(** The effect that depends on [printQueue]; [rendered] is the value of
    [printQueue] in the render the effect belongs to. *)
Definition persistEffect (rendered : list QueueItem) : M World () :=
  inStorage (setItem PRINT_QUEUE_KEY (JSON_stringify rendered)).

(** After a render: the effect runs when [printQueue] was set. *)
Definition runEffects : M World () :=
  w ← gets (λ w, w);
  if queueSet w then
    modify (λ w, mkWorld (app w) (localStorage w) false);;
    persistEffect (printQueue (app w))
  else mret ().

(** Mounting the component: the first render has the initial state, both
    effects run on it in order, and the state set by [loadEffect] is
    rendered next. *)
Definition mount : M World () :=
  loadEffect;;
  persistEffect (printQueue initialApp);;
  runEffects.

(** ** Events and the page *)

(** What the user, or a timer, can do to a mounted page: press Generate,
    type in the label input, click a row of the history, add an entry to the
    sheet, remove a slot, reset the sheet, delete an entry; the timer of
    [showStatus] fires.  Each event carries the values of [Math.random()],
    [Date.now()] and [confirm] its handler reads. *)
Inductive Event : Type :=
| Generate (draws : nat → Q) (now : Z)
| ChangeLabel (value : string)
| ClickEntry (index : nat)
| AddToSheet (entry0 : option BarcodeEntry) (token : string) (now : Z)
| RemoveSlot (printId0 : string)
| ResetCanvas (confirmed : bool)
| Delete (id0 : string) (confirmed : bool)
| StatusTimeout.

Definition handler (ev : Event) : M World () :=
  match ev with
  | Generate draws now => generateUniqueCode draws now;; mret ()
  | ChangeLabel value => setLabelInput value
  | ClickEntry index =>
      st ← gets app;
      match history st !! index with
      | Some e => setCurrentEntry (Some e)
      | None => mret ()
      end
  | AddToSheet entry0 token now => addToPrintQueue entry0 token now
  | RemoveSlot printId0 => removeFromQueue printId0
  | ResetCanvas confirmed => clearQueue confirmed
  | Delete id0 confirmed => handleDelete id0 confirmed
  | StatusTimeout => setStatusMessage None
  end.

Definition dispatch (ev : Event) : M World () := handler ev;; runEffects.

(** The page is mounted, or it is not: it was never opened, it was closed,
    or an exception escaped from an effect and React removed the tree.  The
    storage outlives the page. *)
Inductive Page : Type :=
| Mounted (w : World)
| Unmounted (ls : LocalStorage).

Definition storageOf (p : Page) : LocalStorage :=
  match p with
  | Mounted w => localStorage w
  | Unmounted ls => ls
  end.

Definition settle (r : Completion () * World) : Page :=
  match r with
  | (Normal _, w) => Mounted w
  | (Throw _, w) => Unmounted (localStorage w)
  end.

Inductive Action : Type :=
| Open                (* the page is (re)loaded *)
| UI (ev : Event).

Definition act (a : Action) (p : Page) : Page :=
  match a with
  | Open => settle (mount (mkWorld initialApp (storageOf p) false))
  | UI ev =>
      match p with
      | Mounted w => settle (dispatch ev w)
      | Unmounted ls => Unmounted ls
      end
  end.

(** A browser whose storage holds neither key and has the schedule [fs]. *)
Definition freshStorage (fs : list bool) : LocalStorage := mkStorage None None fs.

Inductive reachable : Page → Prop :=
| reachable_fresh fs : reachable (Unmounted (freshStorage fs))
| reachable_act a p : reachable p → reachable (act a p).

(** ** Vocabulary of the statements *)

(** [Math.random()] returns a number in the interval [0, 1). *)
Definition unitInterval (r : Q) : Prop := (0 <= r)%Q ∧ (r < 1)%Q.

(** The list under the history key, as [getHistory] reads it when the read
    does not fail. *)
Definition storedHistory (ls : LocalStorage) : list BarcodeEntry :=
  match barcodegen_history_v1 ls with
  | Some (Doc (Arr l)) => l
  | _ => []
  end.

(** The identifiers of a list of entries. *)
Definition ids (l : list BarcodeEntry) : list string := map id l.

(** The next two accesses to the storage, the read and the write of one call
    of [saveEntry] or [deleteEntry], do not fail. *)
Definition unfaulted (ls : LocalStorage) : Prop :=
  nextFault ls = false ∧ nextFault (tick ls) = false.

(** The storages reached from one that holds neither key through the
    operations of [storageService], under any schedule of faults. *)
Inductive storeReachable : LocalStorage → Prop :=
| storeReachable_fresh fs : storeReachable (freshStorage fs)
| storeReachable_getHistory ls :
    storeReachable ls → storeReachable (getHistory ls).2
| storeReachable_saveEntry entry0 ls :
    storeReachable ls → storeReachable (saveEntry entry0 ls).2
| storeReachable_deleteEntry id0 ls :
    storeReachable ls → storeReachable (deleteEntry id0 ls).2
| storeReachable_clearHistory ls :
    storeReachable ls → storeReachable (clearHistory ls).2.

(** What the specification promises of [saveEntry entry0]: afterwards the
    saved entry is the first stored record. *)
Definition savedFirst (entry0 : BarcodeEntry) (ls : LocalStorage) : Prop :=
  head (storedHistory (saveEntry entry0 ls).2) = Some entry0.

(** What the specification promises of saving the same entry again: the
    length of the stored history does not change. *)
Definition resaveKeepsLength (entry0 : BarcodeEntry) (ls : LocalStorage) : Prop :=
  length (storedHistory (saveEntry entry0 ls).2) = length (storedHistory ls).

(** What the specification promises of an enqueue without an entry: an
    error message is shown. *)
Definition surfacesError (w : World) : Prop :=
  ∃ text, statusMessage (app w) = Some (error, text).

(** Two successive enqueues of the same entry. *)
Definition enqueueTwice (e : BarcodeEntry) (token1 : string) (now1 : Z)
    (token2 : string) (now2 : Z) : M World () :=
  addToPrintQueue (Some e) token1 now1;;
  addToPrintQueue (Some e) token2 now2.

(** The [printId]s of a queue are pairwise distinct. *)
Definition distinctPrintIds (q : list QueueItem) : Prop :=
  NoDup (map printId q).

(** What the specification promises of a deletion: the identifier is gone
    from the history, from the store and from the print queue. *)
Definition deletedEverywhere (id0 : string) (w : World) : Prop :=
  (id0 ∉ ids (history (app w)))
  ∧ (id0 ∉ ids (storedHistory (localStorage w)))
  ∧ (id0 ∉ ids (map entry (printQueue (app w)))).

(** One step of the print queue: an item is appended to a queue of fewer
    than twenty items, or items are removed and the others keep their order
    (which includes that nothing changes). *)
Definition queueStep (q q' : list QueueItem) : Prop :=
  ((length q < 20)%nat ∧ ∃ item, q' = q ++ [item]) ∨ q' `sublist_of` q.

(** The stored print queue, when there is one, has at most twenty items. *)
Definition storedQueueBounded (ls : LocalStorage) : Prop :=
  ∀ q, barcodegen_print_queue ls = Some (Doc q) → (length q ≤ 20)%nat.

(** The invariant of the page: a mounted page has at most twenty items in
    its print queue, the stored print queue is that queue, and no effect is
    pending. *)
Definition pageInvariant (p : Page) : Prop :=
  match p with
  | Mounted w =>
      (length (printQueue (app w)) ≤ 20)%nat
      ∧ barcodegen_print_queue (localStorage w) = Some (Doc (printQueue (app w)))
      ∧ queueSet w = false
  | Unmounted ls => storedQueueBounded ls
  end.

(** ** Printing and the sheet ([App.tsx] lines 138-148, 378-446) *)

Inductive Tab : Type := generator | sheet.

#[global] Instance Tab_eq_dec : EqDecision Tab.
Proof. solve_decision. Defined.

(** [handlePrint]; [activeTab] is the value of that state in the render the
    handler belongs to, and the result tells whether [window.print()] was
    called. *)
Definition handlePrint (activeTab : Tab) : M World bool :=
  st ← gets app;
  if decide (activeTab = sheet ∧ length (printQueue st) = 0%nat) then
    showStatus error "Sheet is empty. Add barcodes first.";;
    mret false
  else if decide (activeTab = generator ∧ currentEntry st = None) then
    showStatus error "No barcode selected to print.";;
    mret false
  else mret true.

(** The twenty slots of the sheet:
    [Array.from({ length: 20 }).map((_, idx) => printQueue[idx])]. *)
Definition sheetSlots (q : list QueueItem) : list (option QueueItem) :=
  map (λ idx, q !! idx) (seq 0 20).

(** What the print area holds: the label of the current entry on the
    generator tab when there is one, the grid of the sheet otherwise. *)
Inductive PrintArea : Type :=
| SingleLabel (e : BarcodeEntry)
| SheetGrid (slots : list (option QueueItem)).

Definition printArea (activeTab : Tab) (st : AppState) : PrintArea :=
  match activeTab, currentEntry st with
  | generator, Some c => SingleLabel c
  | _, _ => SheetGrid (sheetSlots (printQueue st))
  end.

(** ** The events the rendered page can issue *)

(** The entry given to [addToPrintQueue] is an entry of the history (the
    button of a history row) or the current entry (the button "To Sheet",
    rendered when there is a current entry); the draws of [Math.random()]
    are in the unit interval. *)
Definition wired (w : World) (ev : Event) : Prop :=
  match ev with
  | Generate draws _ => ∀ i, unitInterval (draws i)
  | AddToSheet entry0 _ _ =>
      ∃ e, entry0 = Some e
           ∧ (e ∈ history (app w) ∨ currentEntry (app w) = Some e)
  | _ => True
  end.

(** The pages reached from a browser whose storage holds neither key and has
    the schedule [fs], through loads of the page and events of the rendered
    page. *)
Inductive wiredReachable (fs : list bool) : Page → Prop :=
| wiredReachable_fresh : wiredReachable fs (Unmounted (freshStorage fs))
| wiredReachable_open p :
    wiredReachable fs p → wiredReachable fs (act Open p)
| wiredReachable_ui ev w :
    wiredReachable fs (Mounted w) → wired w ev →
    wiredReachable fs (act (UI ev) (Mounted w)).


(** The list stored under the print-queue key, empty when the key is absent
    or does not parse. *)
Definition storedQueue (ls : LocalStorage) : list QueueItem :=
  match barcodegen_print_queue ls with
  | Some (Doc q) => q
  | _ => []
  end.

(** The state of a mounted page agrees with itself and with the store: the
    history is the stored list, there is a current entry whenever the
    history is not empty, the current entry is an entry of the history, and
    so is the entry of every item of the print queue. *)
Definition coherent (w : World) : Prop :=
  faults (localStorage w) = []
  ∧ history (app w) = storedHistory (localStorage w)
  ∧ (currentEntry (app w) = None → history (app w) = [])
  ∧ (∀ c, currentEntry (app w) = Some c → c ∈ history (app w))
  ∧ (∀ item, item ∈ printQueue (app w) → entry item ∈ history (app w)).

Definition consistent (p : Page) : Prop :=
  match p with
  | Mounted w =>
      coherent w
      ∧ barcodegen_print_queue (localStorage w) = Some (Doc (printQueue (app w)))
      ∧ queueSet w = false
  | Unmounted ls =>
      faults ls = []
      ∧ ∀ item, item ∈ storedQueue ls → entry item ∈ storedHistory ls
  end.




(** ** Sample data *)

Definition entryA : BarcodeEntry :=
  mkEntry "111111111" 1700000000000 (Some "Asset 1") CODE128.

Definition entryB : BarcodeEntry :=
  mkEntry "222222222" 1700000000500 None CODE128.

(** A page just opened in a browser without stored data. *)
Definition emptyWorld : World := mkWorld initialApp (freshStorage []) false.

(** A page with the history [A; B], [A] selected and on the sheet twice, and
    a storage in step with it, whose schedule of faults is [fs]. *)
Definition sampleQueue : list QueueItem :=
  [mkItem entryA "k3f9x2a1b1700000001000"; mkItem entryB "p0q8m4z7c1700000002000";
   mkItem entryA "d5t1w9e6r1700000003000"].

Definition sampleWorld (fs : list bool) : World :=
  mkWorld (mkApp [entryA; entryB] (Some entryA) "" None sampleQueue)
          (mkStorage (Some (Doc (Arr [entryA; entryB]))) (Some (Doc sampleQueue)) fs)
          false.

(** ** Tactics that unfold the monad *)

Ltac run :=
  cbv [mbind M_bind mret M_ret gets modify try_catch throw access
       getItem setItem removeItem JSON_parse JSON_stringify].

Ltac run_app :=
  cbv [mbind M_bind mret M_ret gets modify try_catch throw
       withApp setHistory setCurrentEntry setLabelInput setStatusMessage
       setPrintQueue inStorage showStatus].

(** * Properties *)

(** ** Decimal numerals *)





(** Distinct integers have distinct numerals. *)
Lemma toString_inj (n m : Z) : toString n = toString m → n = m.
Proof. unfold toString. apply (inj pretty). Qed.

(** ** The candidate identifier *)


(** ** White space *)

Lemma trimEnd_empty_iff (s : string) :
  trimEnd s = "" ↔ allWhiteSpace s = true.
Proof.
  induction s as [|c s IH]; simpl; [done|].
  destruct (trimEnd s) eqn:E, (isWhiteSpace c); simpl; split; try done.
  - intros _. by apply IH.
  - intros H. apply IH in H. done.
Qed.

Lemma allWhiteSpace_trimStart (s : string) :
  allWhiteSpace (trimStart s) = allWhiteSpace s.
Proof.
  induction s as [|c s IH]; simpl; [done|].
  destruct (isWhiteSpace c) eqn:E; simpl; [done|]. by rewrite E.
Qed.

Lemma trim_empty_iff (s : string) : trim s = "" ↔ allWhiteSpace s = true.
Proof. unfold trim. by rewrite trimEnd_empty_iff, allWhiteSpace_trimStart. Qed.



Lemma append_cons (c : ascii) (a b : string) :
  String c a +:+ b = String c (a +:+ b).
Proof. reflexivity. Qed.

Lemma append_nil (b : string) : "" +:+ b = b.
Proof. reflexivity. Qed.

(** [trimStart] removes a prefix of white space and leaves a string that
    does not begin with white space. *)
Lemma trimStart_spec (s : string) :
  ∃ pre, s = pre +:+ trimStart s ∧ allWhiteSpace pre = true
         ∧ ∀ c t, trimStart s = String c t → isWhiteSpace c = false.
Proof.
  induction s as [|c s (pre & Hs & Hpre & Hhd)]; simpl.
  - exists "". done.
  - destruct (isWhiteSpace c) eqn:E.
    + exists (String c pre). rewrite append_cons. simpl. rewrite E, Hpre.
      split; [by f_equal|done].
    + exists "". split; [done|]. split; [done|]. congruence.
Qed.

(** [trimEnd] removes a suffix of white space and leaves a string that does
    not end with white space. *)
Lemma trimEnd_spec (s : string) :
  ∃ post, s = trimEnd s +:+ post ∧ allWhiteSpace post = true
          ∧ ∀ t c, trimEnd s = t +:+ String c "" → isWhiteSpace c = false.
Proof.
  induction s as [|c s (post & Hs & Hpost & Hlast)]; simpl.
  - exists "". split; [done|]. split; [done|]. by intros [|??] ?.
  - destruct (trimEnd s) as [|d u] eqn:E.
    + rewrite append_nil in Hs. destruct (isWhiteSpace c) eqn:Ec.
      * exists (String c post). rewrite append_nil. simpl. rewrite Ec, Hpost.
        split; [by f_equal|]. split; [done|]. by intros [|??] ?.
      * exists post. rewrite append_cons, append_nil.
        split; [by f_equal|]. split; [done|].
        intros [|? [|??]] c' [=]; congruence.
    + exists post. rewrite append_cons.
      split; [by f_equal|]. split; [done|].
      intros [|a t] c' [=]. subst. eapply Hlast. eassumption.
Qed.

Lemma trimEnd_head (s : string) c t :
  trimEnd s = String c t → ∃ t', s = String c t'.
Proof.
  destruct s as [|d s]; simpl; [done|].
  destruct (trimEnd s), (isWhiteSpace d); intros [=]; subst; eauto.
Qed.

(** [trim] removes white space at both ends, and nothing else. *)
Lemma trim_spec (s : string) :
  ∃ pre post, s = pre +:+ (trim s +:+ post)
    ∧ allWhiteSpace pre = true ∧ allWhiteSpace post = true
    ∧ (∀ c t, trim s = String c t → isWhiteSpace c = false)
    ∧ (∀ t c, trim s = t +:+ String c "" → isWhiteSpace c = false).
Proof.
  destruct (trimStart_spec s) as (pre & Hs & Hpre & Hhd).
  destruct (trimEnd_spec (trimStart s)) as (post & Ht & Hpost & Hlast).
  exists pre, post. unfold trim. split; [congruence|].
  repeat split; try done.
  intros c t Hc. destruct (trimEnd_head _ _ _ Hc) as [t' Ht'].
  by eapply Hhd.
Qed.

(** ** The store: what each operation computes *)

Lemma getHistory_eq (ls : LocalStorage) :
  getHistory ls
  = (Normal (if nextFault ls then [] else storedHistory ls), tick ls).
Proof.
  unfold getHistory, storedHistory. run.
  destruct (nextFault ls); [done|].
  unfold slot, tick, truthy; simpl.
  destruct (barcodegen_history_v1 ls) as [[s|[|l]]|]; try done.
  by case_decide.
Qed.

Lemma saveEntry_eq (e : BarcodeEntry) (ls : LocalStorage) :
  saveEntry e ls
  = (Normal (),
     let l := if nextFault ls then [] else storedHistory ls in
     let updated := e :: filter (λ x, id x ≠ id e) l in
     if nextFault (tick ls) then tick (tick ls)
     else put STORAGE_KEY (Some (Doc (Arr updated))) (tick (tick ls))).
Proof.
  unfold saveEntry. run. rewrite getHistory_eq.
  by destruct (nextFault (tick ls)).
Qed.

Lemma deleteEntry_eq (id0 : string) (ls : LocalStorage) :
  deleteEntry id0 ls
  = let l := if nextFault ls then [] else storedHistory ls in
    let updated := filter (λ x, id x ≠ id0) l in
    if nextFault (tick ls) then getHistory (tick (tick ls))
    else (Normal updated,
          put STORAGE_KEY (Some (Doc (Arr updated))) (tick (tick ls))).
Proof.
  unfold deleteEntry. run. rewrite getHistory_eq.
  by destruct (nextFault (tick ls)).
Qed.

Lemma clearHistory_eq (ls : LocalStorage) :
  clearHistory ls
  = if nextFault ls then (Throw DOMException, tick ls)
    else (Normal (), put STORAGE_KEY None (tick ls)).
Proof. unfold clearHistory. run. by destruct (nextFault ls). Qed.

Lemma filter_ids_NoDup (P : BarcodeEntry → Prop) `{∀ x, Decision (P x)}
    (l : list BarcodeEntry) :
  NoDup (ids l) → NoDup (ids (filter P l)).
Proof.
  unfold ids. induction l as [|x l IH]; simpl; [done|].
  rewrite NoDup_cons. intros [Hx Hl].
  rewrite filter_cons. case_decide; simpl; [|by apply IH].
  apply NoDup_cons. split; [|by apply IH].
  intros Hin. apply Hx.
  apply list_elem_of_fmap in Hin as (y & -> & Hy).
  apply list_elem_of_filter in Hy as [_ Hy].
  apply list_elem_of_fmap. eauto.
Qed.

Lemma filter_same_id_nil (i : string) (l : list BarcodeEntry) :
  filter (λ x, id x = i) (filter (λ x, id x ≠ i) l) = [].
Proof.
  induction l as [|x l IH]; [done|].
  rewrite filter_cons. case_decide; [|done].
  rewrite filter_cons. by case_decide.
Qed.

Lemma filter_other_id_idem (i : string) (l : list BarcodeEntry) :
  filter (λ x, id x ≠ i) (filter (λ x, id x ≠ i) l) = filter (λ x, id x ≠ i) l.
Proof.
  induction l as [|x l IH]; [done|].
  rewrite filter_cons. case_decide; [|done].
  rewrite filter_cons. case_decide; [|done]. by rewrite IH.
Qed.

Lemma filter_absent_id (i : string) (l : list BarcodeEntry) :
  i ∉ ids l → filter (λ x, id x ≠ i) l = l.
Proof.
  unfold ids. induction l as [|x l IH]; [done|]. simpl.
  rewrite not_elem_of_cons. intros [Hx Hl].
  rewrite filter_cons. case_decide; [|congruence]. by rewrite IH.
Qed.

(** Removing the records of an identifier that occurs, once, in a list of
    pairwise distinct identifiers shortens the list by one. *)
Lemma filter_present_id_length (i : string) (l : list BarcodeEntry) :
  NoDup (ids l) → i ∈ ids l →
  S (length (filter (λ x, id x ≠ i) l)) = length l.
Proof.
  unfold ids. induction l as [|x l IH]; simpl.
  - intros _ Hin. by apply elem_of_nil in Hin.
  - rewrite NoDup_cons, elem_of_cons. intros [Hx Hl] Hin.
    rewrite filter_cons. case_decide as Hne; simpl.
    + destruct Hin as [->|Hin]; [done|]. by rewrite IH.
    + subst i.
      by rewrite (filter_absent_id (id x) l).
Qed.

(** ** The store: properties *)

(** Whatever fails, [saveEntry] keeps stored identifiers pairwise distinct. *)
Lemma saveEntry_NoDup (e : BarcodeEntry) (ls : LocalStorage) :
  NoDup (ids (storedHistory ls)) → NoDup (ids (storedHistory (saveEntry e ls).2)).
Proof.
  intros Hnd. rewrite saveEntry_eq. cbn [snd].
  destruct (nextFault (tick ls)); [done|].
  unfold storedHistory at 1. simpl. unfold ids. simpl.
  apply NoDup_cons. split.
  - intros Hin. apply list_elem_of_fmap in Hin as (y & Hy & Hin).
    apply list_elem_of_filter in Hin as [Hne _]. congruence.
  - apply filter_ids_NoDup. destruct (nextFault ls); [constructor|done].
Qed.

Lemma deleteEntry_NoDup (id0 : string) (ls : LocalStorage) :
  NoDup (ids (storedHistory ls)) →
  NoDup (ids (storedHistory (deleteEntry id0 ls).2)).
Proof.
  intros Hnd. rewrite deleteEntry_eq. cbv zeta.
  destruct (nextFault (tick ls)); [by rewrite getHistory_eq|].
  unfold storedHistory at 1. simpl.
  apply filter_ids_NoDup. destruct (nextFault ls); [constructor|done].
Qed.

(** In every storage reached through the operations of the store, at most
    one record is stored per identifier. *)
Lemma storeReachable_NoDup (ls : LocalStorage) :
  storeReachable ls → NoDup (ids (storedHistory ls)).
Proof.
  induction 1 as [fs|ls _ IH|e ls _ IH|id0 ls _ IH|ls _ IH].
  - constructor.
  - by rewrite getHistory_eq.
  - by apply saveEntry_NoDup.
  - by apply deleteEntry_NoDup.
  - rewrite clearHistory_eq. destruct (nextFault ls); [done|constructor].
Qed.

(** C7 (the code departs from the claim).  [getHistory], [saveEntry] and
    [deleteEntry] complete normally whatever the storage holds and whichever
    accesses fail, and [getHistory] returns the empty list when the key is
    absent, when the stored string is empty or not JSON, when it is JSON but
    not an array, and when the read fails.  [clearHistory], the one operation
    whose access is outside of any try block, throws to its caller when the
    access fails. *)
Theorem storageService_completions :
  (∀ ls, ∃ l ls', getHistory ls = (Normal l, ls'))
  ∧ (∀ e ls, ∃ ls', saveEntry e ls = (Normal (), ls'))
  ∧ (∀ id0 ls, ∃ l ls', deleteEntry id0 ls = (Normal l, ls'))
  ∧ (∀ q fs, (getHistory (mkStorage None q fs)).1 = Normal [])
  ∧ (∀ s q fs, (getHistory (mkStorage (Some (Raw s)) q fs)).1 = Normal [])
  ∧ (∀ q fs, (getHistory (mkStorage (Some (Doc NotArray)) q fs)).1 = Normal [])
  ∧ (∀ h q fs, (getHistory (mkStorage h q (true :: fs))).1 = Normal [])
  ∧ (∀ h q fs, clearHistory (mkStorage h q (true :: fs))
               = (Throw DOMException, mkStorage h q fs)).
Proof.
  repeat apply conj.
  - intros ls. rewrite getHistory_eq. eauto.
  - intros e ls. rewrite saveEntry_eq. eauto.
  - intros id0 ls. rewrite deleteEntry_eq. simpl.
    destruct (nextFault (tick ls)); [rewrite getHistory_eq|]; eauto.
  - intros q fs. rewrite getHistory_eq. simpl. by destruct (nextFault _).
  - intros s q fs. rewrite getHistory_eq. simpl. by destruct (nextFault _).
  - intros q fs. rewrite getHistory_eq. simpl. by destruct (nextFault _).
  - intros h q fs. by rewrite getHistory_eq.
  - intros h q fs. by rewrite clearHistory_eq.
Qed.

(** C10.  When the write of [deleteEntry] fails, the operation returns what
    [getHistory] then reads, and the stored string is the one stored before
    the call; when that read succeeds the result is the whole stored list,
    not the filtered one, so that every stored record with the given
    identifier is still part of the result and of the store. *)
Theorem deleteEntry_write_failure (id0 : string) (ls : LocalStorage) :
  nextFault (tick ls) = true →
  deleteEntry id0 ls = getHistory (tick (tick ls))
  ∧ barcodegen_history_v1 (deleteEntry id0 ls).2 = barcodegen_history_v1 ls
  ∧ (nextFault (tick (tick ls)) = false →
     (deleteEntry id0 ls).1 = Normal (storedHistory ls)
     ∧ ∀ e, e ∈ storedHistory ls → id e = id0 →
            e ∈ storedHistory (deleteEntry id0 ls).2).
Proof.
  intros Hw. rewrite deleteEntry_eq. simpl. rewrite Hw.
  split; [done|]. rewrite getHistory_eq. simpl. split; [done|].
  intros ->. done.
Qed.

(** C4, as amended.  When the read and the write of the call succeed,
    [saveEntry e] stores [e] followed by the records stored before whose
    identifier is not that of [e]: [e] is first, it is the only stored
    record with its identifier, identifiers that were pairwise distinct
    remain so (as they are in every storage reached through the operations
    of the store), a record that was stored under the identifier of [e] is
    replaced without changing the length, and saving [e] once more (again
    without a failure) leaves the stored list as it is. *)
Theorem saveEntry_replaces_and_prepends (e : BarcodeEntry) (ls : LocalStorage) :
  unfaulted ls →
  let ls' := (saveEntry e ls).2 in
  storedHistory ls' = e :: filter (λ x, id x ≠ id e) (storedHistory ls)
  ∧ head (storedHistory ls') = Some e
  ∧ filter (λ x, id x = id e) (storedHistory ls') = [e]
  ∧ (NoDup (ids (storedHistory ls)) → NoDup (ids (storedHistory ls')))
  ∧ (storeReachable ls → NoDup (ids (storedHistory ls')))
  ∧ (NoDup (ids (storedHistory ls)) → id e ∈ ids (storedHistory ls) →
     length (storedHistory ls') = length (storedHistory ls))
  ∧ (unfaulted ls' →
     storedHistory (saveEntry e ls').2 = storedHistory ls').
Proof.
  intros [Hr Hw] ls'.
  assert (storedHistory ls' = e :: filter (λ x, id x ≠ id e) (storedHistory ls))
    as Heq.
  { unfold ls'. rewrite saveEntry_eq. simpl. by rewrite Hr, Hw. }
  assert (NoDup (ids (storedHistory ls)) → NoDup (ids (storedHistory ls')))
    as Hkeep by apply saveEntry_NoDup.
  rewrite Heq in *. repeat apply conj; [done|done|..].
  - rewrite filter_cons. case_decide; [|done]. by rewrite filter_same_id_nil.
  - done.
  - intros Hreach. by apply Hkeep, storeReachable_NoDup.
  - intros Hnd Hin. simpl. by apply filter_present_id_length.
  - intros [Hr' Hw']. rewrite saveEntry_eq. simpl. rewrite Hr', Hw'.
    unfold storedHistory at 1. simpl. rewrite Heq. f_equal.
    rewrite filter_cons. case_decide; [done|]. apply filter_other_id_idem.
Qed.

(** ** The allocator loop *)

(** A successful probe returns a candidate of one of its draws, which is not
    an existing identifier. *)
Lemma probe_unique (budget : nat) (existingIds : gset string) (draws : nat → Q) :
  ∀ attempts code0 code n,
    probe budget existingIds draws attempts code0 = (code, true, n) →
    (code ∉ existingIds)
    ∧ ∃ i, (attempts ≤ i < attempts + budget)%nat ∧ n = S i
           ∧ code = candidate (draws i).
Proof.
  induction budget as [|b IH]; intros attempts code0 code n; simpl; [done|].
  case_decide as Hin.
  - intros H. apply IH in H as (Hfresh & i & Hi & -> & ->).
    split; [done|]. exists i. split; [lia|done].
  - intros [= <- <-]. split; [done|]. exists attempts. split; [lia|done].
Qed.

(** When every draw collides, the probe spends its whole budget. *)
Lemma probe_exhausted (budget : nat) (existingIds : gset string) (draws : nat → Q) :
  ∀ attempts code0,
    (∀ i, (attempts ≤ i < attempts + budget)%nat →
          candidate (draws i) ∈ existingIds) →
    ∃ code, probe budget existingIds draws attempts code0
            = (code, false, (attempts + budget)%nat).
Proof.
  induction budget as [|b IH]; intros attempts code0 Hall; simpl.
  - exists code0. f_equal. lia.
  - rewrite decide_True by (apply Hall; lia).
    destruct (IH (S attempts) (candidate (draws attempts))) as [code Hc].
    { intros i Hi. apply Hall. lia. }
    exists code. rewrite Hc. f_equal. lia.
Qed.

(** When one of the draws within the budget gives a candidate that is not
    an existing identifier, the probe finds a unique code. *)
Lemma probe_finds (budget : nat) (existingIds : gset string) (draws : nat → Q) :
  ∀ attempts code0 i,
    (attempts ≤ i < attempts + budget)%nat →
    candidate (draws i) ∉ existingIds →
    ∃ code n, probe budget existingIds draws attempts code0 = (code, true, n).
Proof.
  induction budget as [|b IH]; intros attempts code0 i Hi Hfresh; [lia|].
  simpl. case_decide as Hin; [|eauto].
  apply (IH _ _ i); [|done].
  destruct (decide (i = attempts)) as [->|]; [done|lia].
Qed.

(** ** The handlers: what each computes *)

Lemma generateUniqueCode_eq (draws : nat → Q) (now : Z) (w : World) :
  generateUniqueCode draws now w
  = let a := app w in
    let existingIds : gset string :=
      list_to_set (map (λ h, String_of (id h)) (history a)) in
    let r := probe maxAttempts existingIds draws 0 "" in
    let code := r.1.1 in
    if r.1.2 then
      let newEntry := mkEntry code now (or_undefined (trim (labelInput a))) CODE128 in
      (Normal (Some newEntry),
       mkWorld (mkApp (newEntry :: history a) (Some newEntry) ""
                      (Some (success, "Generated " +:+ code)) (printQueue a))
               (saveEntry newEntry (localStorage w)).2 (queueSet w))
    else
      (Normal None,
       mkWorld (mkApp (history a) (currentEntry a) (labelInput a)
                      (Some (error, "Critical error: Unique ID generation failed."))
                      (printQueue a))
               (localStorage w) (queueSet w)).
Proof.
  unfold generateUniqueCode. run_app.
  destruct (probe maxAttempts _ draws 0 "") as [[code isUnique] attempts].
  destruct isUnique; cbn [negb fst snd]; [|done].
  cbn [app localStorage queueSet]. by rewrite saveEntry_eq.
Qed.

Lemma addToPrintQueue_eq (e : BarcodeEntry) (token : string) (now : Z) (w : World) :
  addToPrintQueue (Some e) token now w
  = let a := app w in
    if (20 <=? length (printQueue a))%nat then
      (Normal (),
       mkWorld (mkApp (history a) (currentEntry a) (labelInput a)
                      (Some (error, "Sheet is full (Max 20 per A4 page)."))
                      (printQueue a))
               (localStorage w) (queueSet w))
    else
      (Normal (),
       mkWorld (mkApp (history a) (currentEntry a) (labelInput a)
                      (Some (success, "Added to A4 Sheet."))
                      (printQueue a ++ [mkItem e (token +:+ toString now)]))
               (localStorage w) true).
Proof.
  unfold addToPrintQueue. run_app.
  by destruct (20 <=? length (printQueue (app w)))%nat.
Qed.

Lemma handleDelete_eq (id0 : string) (w : World) l ls' :
  deleteEntry id0 (localStorage w) = (Normal l, ls') →
  handleDelete id0 true w
  = let a := app w in
    (Normal (),
     mkWorld (mkApp l
                (match currentEntry a with
                 | Some c => if decide (id c = id0) then head l else Some c
                 | None => None
                 end)
                (labelInput a) (Some (success, "Barcode deleted."))
                (filter (λ item, id (entry item) ≠ id0) (printQueue a)))
             ls' true).
Proof.
  intros Hd. unfold handleDelete. run_app. cbn [negb app localStorage queueSet].
  rewrite Hd. unfold String_of. simpl.
  destruct (currentEntry (app w)) as [c|]; [case_decide|]; reflexivity.
Qed.

(** ** The allocator *)


(** The allocator succeeds as soon as one of the first hundred candidates
    is not the [id] of an entry of the history. *)
Lemma generateUniqueCode_succeeds (draws : nat → Q) (now : Z) (w : World) (i : nat) :
  (i < maxAttempts)%nat →
  candidate (draws i) ∉ ids (history (app w)) →
  ∃ e w', generateUniqueCode draws now w = (Normal (Some e), w').
Proof.
  intros Hi Hfresh.
  destruct (probe_finds maxAttempts (list_to_set (ids (history (app w))))
              draws 0 "" i) as (code & n & Hp); [lia| |].
  { intros Hin. apply Hfresh. by apply elem_of_list_to_set in Hin. }
  rewrite generateUniqueCode_eq. cbv zeta.
  change (map (λ h, String_of (id h)) (history (app w)))
    with (ids (history (app w))).
  rewrite Hp. cbn [fst snd]. eauto.
Qed.

(** C3.  When each of the first hundred candidates is the [id] of an entry
    of the history, the loop ends after exactly [maxAttempts = 100] attempts
    without a unique code, [generateUniqueCode] returns [null] and shows an
    error message, and the history, the current entry, the label input, the
    print queue and the storage are those before the call. *)
Theorem generateUniqueCode_exhausted (draws : nat → Q) (now : Z) (w : World) :
  (∀ i, (i < maxAttempts)%nat → candidate (draws i) ∈ ids (history (app w))) →
  maxAttempts = 100%nat
  ∧ (∃ code, probe maxAttempts (list_to_set (ids (history (app w)))) draws 0 ""
             = (code, false, 100%nat))
  ∧ ∃ w', generateUniqueCode draws now w = (Normal None, w')
      ∧ statusMessage (app w')
        = Some (error, "Critical error: Unique ID generation failed.")
      ∧ history (app w') = history (app w)
      ∧ currentEntry (app w') = currentEntry (app w)
      ∧ labelInput (app w') = labelInput (app w)
      ∧ printQueue (app w') = printQueue (app w)
      ∧ localStorage w' = localStorage w
      ∧ queueSet w' = queueSet w.
Proof.
  intros Hall.
  destruct (probe_exhausted maxAttempts (list_to_set (ids (history (app w))))
              draws 0 "") as [code Hp].
  { intros i Hi. apply elem_of_list_to_set, Hall. lia. }
  split; [done|]. split; [by exists code|].
  rewrite generateUniqueCode_eq. cbv zeta.
  change (map (λ h, String_of (id h)) (history (app w)))
    with (ids (history (app w))).
  rewrite Hp. cbn [fst snd]. eexists. split; [done|]. done.
Qed.

(** ** The print queue *)

(** C5.  Enqueuing an entry completes normally; on a queue of twenty items
    (or more) it shows the error "Sheet is full" and leaves the queue as it
    is; on a queue of fewer than twenty items it appends exactly one item,
    the copy of the entry, at the end.  Whatever its argument, an enqueue on
    a queue of at most twenty items leaves at most twenty items. *)
Theorem addToPrintQueue_capacity (e : BarcodeEntry) (token : string) (now : Z)
    (w : World) :
  let q := printQueue (app w) in
  let w' := (addToPrintQueue (Some e) token now w).2 in
  (addToPrintQueue (Some e) token now w).1 = Normal ()
  ∧ ((20 ≤ length q)%nat →
     printQueue (app w') = q
     ∧ statusMessage (app w') = Some (error, "Sheet is full (Max 20 per A4 page)."))
  ∧ ((length q < 20)%nat →
     printQueue (app w') = q ++ [mkItem e (token +:+ toString now)]
     ∧ length (printQueue (app w')) = S (length q)
     ∧ statusMessage (app w') = Some (success, "Added to A4 Sheet."))
  ∧ (∀ entry0, (length q ≤ 20)%nat →
     (length (printQueue (app (addToPrintQueue entry0 token now w).2)) ≤ 20)%nat).
Proof.
  intros q w'. subst w'. rewrite addToPrintQueue_eq. cbv zeta. fold q.
  split_and!.
  - by destruct (20 <=? length q)%nat.
  - intros Hfull. apply Nat.leb_le in Hfull. by rewrite Hfull.
  - intros Hroom. apply Nat.leb_gt in Hroom. rewrite Hroom.
    cbn [snd app printQueue statusMessage]. split_and!; [done| |done].
    rewrite length_app. simpl. lia.
  - intros [e'|] Hq; [|done].
    rewrite addToPrintQueue_eq. cbv zeta. fold q.
    destruct (20 <=? length q)%nat eqn:E; cbn [snd app printQueue]; [done|].
    apply Nat.leb_gt in E. rewrite length_app. simpl. lia.
Qed.

(** C8, as amended.  An enqueue without an entry completes normally and
    changes nothing: the print queue, the status message and every other
    part of the state are those before the call. *)
Theorem addToPrintQueue_absent (token : string) (now : Z) (w : World) :
  addToPrintQueue None token now w = (Normal (), w).
Proof. reflexivity. Qed.

Lemma append_length (a b : string) :
  String.length (a +:+ b) = (String.length a + String.length b)%nat.
Proof. induction a as [|c a IH]; [done|]. rewrite append_cons. simpl. by rewrite IH. Qed.

Lemma append_inj_same_length (a b x y : string) :
  String.length a = String.length b → a +:+ x = b +:+ y → a = b ∧ x = y.
Proof.
  revert b. induction a as [|c a IH]; intros [|d b] Hlen; try done.
  rewrite !append_cons. intros [= -> H].
  destruct (IH b) as [-> ->]; [by injection Hlen|done|done].
Qed.

Lemma append_inv_tail (a b x : string) : a +:+ x = b +:+ x → a = b.
Proof.
  intros H. apply (append_inj_same_length a b x x); [|done].
  apply (f_equal String.length) in H. rewrite !append_length in H. lia.
Qed.

(** C9, as amended.  Two successive enqueues of an entry on a queue with
    room for both append two items whose entry is the given one, so that
    their [id] and [label] are its own.  The [printId] of each is the random
    token followed by the decimal clock reading of its insertion.  The two
    [printId]s differ when the two insertions differ in token or clock
    reading and, in addition, the tokens have the same length or the clock
    readings are equal. *)
Theorem enqueueTwice_items (e : BarcodeEntry) (token1 : string) (now1 : Z)
    (token2 : string) (now2 : Z) (w : World) :
  (length (printQueue (app w)) + 2 ≤ 20)%nat →
  ∃ w' item1 item2,
    enqueueTwice e token1 now1 token2 now2 w = (Normal (), w')
    ∧ printQueue (app w') = printQueue (app w) ++ [item1; item2]
    ∧ entry item1 = e ∧ entry item2 = e
    ∧ id (entry item1) = id e ∧ id (entry item2) = id e
    ∧ label (entry item1) = label e ∧ label (entry item2) = label e
    ∧ printId item1 = token1 +:+ toString now1
    ∧ printId item2 = token2 +:+ toString now2
    ∧ ((token1, now1) ≠ (token2, now2) →
       String.length token1 = String.length token2 ∨ now1 = now2 →
       printId item1 ≠ printId item2).
Proof.
  intros Hroom. unfold enqueueTwice.
  cbv [mbind M_bind]. rewrite addToPrintQueue_eq. cbv zeta.
  rewrite (proj2 (Nat.leb_gt 20 _)) by lia.
  rewrite addToPrintQueue_eq. cbv zeta. cbn [app printQueue].
  rewrite (proj2 (Nat.leb_gt 20 _)) by (rewrite length_app; simpl; lia).
  eexists _, (mkItem e (token1 +:+ toString now1)),
             (mkItem e (token2 +:+ toString now2)).
  split_and!; try done.
  - cbn [app printQueue]. by rewrite <- app_assoc.
  - cbn [printId]. intros Hne Hcase Heq. apply Hne.
    destruct Hcase as [Hlen| ->].
    + apply append_inj_same_length in Heq as [-> Hn]; [|done].
      by apply toString_inj in Hn as ->.
    + by apply append_inv_tail in Heq as ->.
Qed.

(** ** Deletion *)

(** C2, as amended.  A confirmed [handleDelete id0] completes normally.  No
    item of the resulting print queue has the identifier, however many had
    it.  The current entry, when it had the identifier, becomes the first
    element of the new history, or absent when the new history is empty;
    otherwise it is kept.  When the write of the store does not fail, the
    new history is the stored list, and the identifier occurs neither in the
    history nor in the store.  A deletion that is not confirmed changes
    nothing. *)
Theorem handleDelete_confirmed (id0 : string) (w : World) :
  (∃ w', handleDelete id0 true w = (Normal (), w')
    ∧ printQueue (app w')
      = filter (λ item, id (entry item) ≠ id0) (printQueue (app w))
    ∧ (id0 ∉ ids (map entry (printQueue (app w'))))
    ∧ currentEntry (app w')
      = match currentEntry (app w) with
        | Some c => if decide (id c = id0) then head (history (app w')) else Some c
        | None => None
        end
    ∧ (nextFault (tick (localStorage w)) = false →
       history (app w') = storedHistory (localStorage w')
       ∧ deletedEverywhere id0 w'))
  ∧ handleDelete id0 false w = (Normal (), w).
Proof.
  split; [|done].
  destruct (deleteEntry id0 (localStorage w)) as [[l|x] ls'] eqn:Hd.
  2: { rewrite deleteEntry_eq in Hd. simpl in Hd.
       destruct (nextFault (tick (localStorage w)));
         [rewrite getHistory_eq in Hd|]; discriminate. }
  rewrite (handleDelete_eq id0 w l ls' Hd). cbv zeta.
  eexists. split; [done|]. cbn [app printQueue currentEntry history localStorage].
  assert (id0 ∉ ids (map entry (filter (λ item, id (entry item) ≠ id0)
                                       (printQueue (app w))))) as Hq.
  { unfold ids. rewrite <- list_fmap_compose. intros Hin.
    apply list_elem_of_fmap in Hin as (item & Hid & Hin).
    apply list_elem_of_filter in Hin as [Hne _]. by apply Hne. }
  split_and!; try done.
  intros Hw. rewrite deleteEntry_eq in Hd. simpl in Hd. rewrite Hw in Hd.
  injection Hd as <- <-.
  assert (id0 ∉ ids (filter (λ x, id x ≠ id0)
            (if nextFault (localStorage w) then []
             else storedHistory (localStorage w)))) as Hh.
  { unfold ids. intros Hin.
    apply list_elem_of_fmap in Hin as (x & Hid & Hin).
    apply list_elem_of_filter in Hin as [Hne _]. by apply Hne. }
  split; [done|]. by split_and!.
Qed.

(** ** The page *)

Lemma saveEntry_queue (e : BarcodeEntry) (ls : LocalStorage) :
  barcodegen_print_queue (saveEntry e ls).2 = barcodegen_print_queue ls.
Proof. rewrite saveEntry_eq. simpl. by destruct (nextFault (tick ls)). Qed.

Lemma deleteEntry_queue (id0 : string) (ls : LocalStorage) :
  barcodegen_print_queue (deleteEntry id0 ls).2 = barcodegen_print_queue ls.
Proof.
  rewrite deleteEntry_eq. simpl.
  destruct (nextFault (tick ls)); [by rewrite getHistory_eq|done].
Qed.

Lemma deleteEntry_normal (id0 : string) (ls : LocalStorage) :
  ∃ l ls', deleteEntry id0 ls = (Normal l, ls').
Proof.
  rewrite deleteEntry_eq. simpl.
  destruct (nextFault (tick ls)); [rewrite getHistory_eq|]; eauto.
Qed.

Lemma queueStep_refl (q : list QueueItem) : queueStep q q.
Proof. by right. Qed.

Lemma queueStep_length (q q' : list QueueItem) :
  queueStep q q' → (length q ≤ 20)%nat → (length q' ≤ 20)%nat.
Proof.
  intros [[Hlt [item ->]]|Hsub] Hq.
  - rewrite length_app. simpl. lia.
  - apply sublist_length in Hsub. lia.
Qed.

(** No handler throws, no handler writes the stored print queue, and every
    handler changes the print queue by one [queueStep], setting the flag
    of the effect whenever it sets the queue. *)
Lemma handler_spec (ev : Event) (w : World) :
  ∃ w1, handler ev w = (Normal (), w1)
    ∧ barcodegen_print_queue (localStorage w1)
      = barcodegen_print_queue (localStorage w)
    ∧ queueStep (printQueue (app w)) (printQueue (app w1))
    ∧ (queueSet w1 = true
       ∨ (queueSet w1 = queueSet w ∧ printQueue (app w1) = printQueue (app w))).
Proof.
  destruct ev as [draws now|value|index|[e|] token now|pid|[]|id0 []|];
    cbn [handler].
  - cbv [mbind M_bind mret M_ret]. rewrite generateUniqueCode_eq. cbv zeta.
    destruct (probe maxAttempts _ draws 0 "") as [[code isUnique] attempts].
    cbn [fst snd]. destruct isUnique; eexists; (split; [done|]);
      cbn [app localStorage printQueue queueSet];
      rewrite ?saveEntry_queue; auto using queueStep_refl.
  - eexists; split; [done|]. simpl. auto using queueStep_refl.
  - run_app. destruct (history (app w) !! index); eexists; (split; [done|]);
      simpl; auto using queueStep_refl.
  - rewrite addToPrintQueue_eq. cbv zeta.
    destruct (20 <=? length (printQueue (app w)))%nat eqn:E;
      eexists; (split; [done|]); cbn [app localStorage printQueue queueSet].
    + auto using queueStep_refl.
    + apply Nat.leb_gt in E. split_and!; [done| |by left].
      left. eauto.
  - eexists; split; [done|]. auto using queueStep_refl.
  - eexists; split; [done|]. simpl. split_and!; [done| |by left].
    right. apply sublist_filter.
  - eexists; split; [done|]. simpl. split_and!; [done| |by left].
    right. apply sublist_nil_l.
  - eexists; split; [done|]. auto using queueStep_refl.
  - destruct (deleteEntry_normal id0 (localStorage w)) as (l & ls' & Hd).
    rewrite (handleDelete_eq id0 w l ls' Hd). cbv zeta.
    eexists; split; [done|]. cbn [app localStorage printQueue queueSet].
    split_and!; [|right; apply sublist_filter|by left].
    by rewrite <- (deleteEntry_queue id0 (localStorage w)), Hd.
  - eexists; split; [done|]. auto using queueStep_refl.
  - eexists; split; [done|]. simpl. auto using queueStep_refl.
Qed.

Lemma runEffects_eq (w : World) :
  runEffects w
  = if queueSet w then
      if nextFault (localStorage w)
      then (Throw DOMException, mkWorld (app w) (tick (localStorage w)) false)
      else (Normal (),
            mkWorld (app w)
              (put PRINT_QUEUE_KEY (Some (Doc (printQueue (app w))))
                   (tick (localStorage w)))
              false)
    else (Normal (), w).
Proof.
  unfold runEffects, persistEffect. run_app. run.
  destruct (queueSet w); [|done].
  cbn [localStorage app queueSet]. by destruct (nextFault (localStorage w)).
Qed.

(** One event on a mounted page that satisfies the invariant: the page
    satisfies it afterwards, and when it is still mounted its queue is one
    [queueStep] away. *)
Lemma dispatch_spec (ev : Event) (w : World) :
  pageInvariant (Mounted w) →
  pageInvariant (settle (dispatch ev w))
  ∧ ∀ w', settle (dispatch ev w) = Mounted w' →
          queueStep (printQueue (app w)) (printQueue (app w')).
Proof.
  intros (Hlen & Hsync & Hflag). unfold dispatch. cbv [mbind M_bind].
  destruct (handler_spec ev w) as (w1 & -> & Hslot & Hstep & Hset).
  pose proof (queueStep_length _ _ Hstep Hlen) as Hlen1.
  rewrite runEffects_eq.
  destruct (queueSet w1) eqn:Hq1.
  - destruct (nextFault (localStorage w1)); cbn [settle localStorage].
    + split; [|done]. intros q. cbn [tick barcodegen_print_queue].
      rewrite Hslot, Hsync. by intros [= <-].
    + split; [done|]. by intros w' [= <-].
  - destruct Hset as [?|[_ Hsame]]; [done|]. cbn [settle].
    split; [|by intros w' [= <-]].
    split_and!; [done| |done]. by rewrite Hslot, Hsync, Hsame.
Qed.

Lemma persistEffect_eq (rendered : list QueueItem) (w : World) :
  persistEffect rendered w
  = if nextFault (localStorage w)
    then (Throw DOMException,
          mkWorld (app w) (tick (localStorage w)) (queueSet w))
    else (Normal (),
          mkWorld (app w)
            (put PRINT_QUEUE_KEY (Some (Doc rendered)) (tick (localStorage w)))
            (queueSet w)).
Proof.
  unfold persistEffect. run_app. run.
  by destruct (nextFault (localStorage w)).
Qed.

Lemma loadEffect_eq (w : World) :
  loadEffect w
  = let ls := localStorage w in
    let a := app w in
    let l := if nextFault ls then [] else storedHistory ls in
    let c := if (0 <? length l)%nat then head l else currentEntry a in
    let loaded q := mkApp l c (labelInput a) (statusMessage a) q in
    if nextFault (tick ls)
    then (Throw DOMException,
          mkWorld (loaded (printQueue a)) (tick (tick ls)) (queueSet w))
    else match barcodegen_print_queue ls with
         | Some (Doc q) => (Normal (), mkWorld (loaded q) (tick (tick ls)) true)
         | _ => (Normal (),
                 mkWorld (loaded (printQueue a)) (tick (tick ls)) (queueSet w))
         end.
Proof.
  unfold loadEffect. run_app. cbn [localStorage app queueSet].
  rewrite getHistory_eq. cbv zeta.
  set (l := if nextFault (localStorage w) then [] else storedHistory (localStorage w)).
  unfold getItem. run.
  destruct (0 <? length l)%nat; cbn [localStorage app queueSet history
    currentEntry labelInput statusMessage printQueue];
    (destruct (nextFault (tick (localStorage w))); [done|]);
    unfold slot, truthy; cbn [tick barcodegen_print_queue];
    (destruct (barcodegen_print_queue (localStorage w)) as [[s|q]|];
     [case_decide| |]; reflexivity).
Qed.

(** Opening the page on a storage whose print queue is bounded: the page
    satisfies the invariant, and when it mounts its queue is the stored one
    (the empty queue when nothing readable is stored). *)
Lemma mount_spec (ls : LocalStorage) :
  storedQueueBounded ls →
  pageInvariant (settle (mount (mkWorld initialApp ls false)))
  ∧ ∀ w', settle (mount (mkWorld initialApp ls false)) = Mounted w' →
          printQueue (app w')
          = match barcodegen_print_queue ls with
            | Some (Doc q) => q
            | _ => []
            end.
Proof.
  intros Hb. unfold mount. cbv [mbind M_bind].
  rewrite loadEffect_eq. cbv zeta.
  cbn [localStorage app queueSet initialApp printQueue].
  destruct (nextFault (tick ls)); [by split|].
  destruct (barcodegen_print_queue ls) as [[s|q]|] eqn:Hq;
    rewrite persistEffect_eq; cbn [localStorage app queueSet];
    (destruct (nextFault (tick (tick ls))); [by split|]);
    rewrite runEffects_eq; cbn [localStorage app queueSet printQueue];
    try (split; [split_and!; [simpl; lia|done|done]|by intros w' [= <-]]).
  destruct (nextFault (put _ _ _)); cbn [settle localStorage].
  - split; [|done]. intros q'. simpl. intros [= <-]. simpl. lia.
  - split; [|by intros w' [= <-]]. split_and!; try done.
    cbn [app printQueue]. by apply Hb.
Qed.

(** The load does not check what it reads: the queue of a page that mounts
    is the stored one, whatever its length.  The bound of the queue after a
    load therefore rests on the bound of what was stored. *)
Remark mount_restores_stored_queue (h : option (Text (Json (list BarcodeEntry))))
    (q : list QueueItem) :
  ∃ w', settle (mount (mkWorld initialApp (mkStorage h (Some (Doc q)) []) false))
        = Mounted w'
        ∧ printQueue (app w') = q.
Proof.
  unfold mount. cbv [mbind M_bind].
  rewrite loadEffect_eq. cbv zeta. unfold nextFault, tick.
  cbn [localStorage faults tail barcodegen_print_queue].
  rewrite persistEffect_eq. unfold nextFault, tick.
  cbn [localStorage faults tail].
  rewrite runEffects_eq. unfold nextFault.
  cbn [localStorage queueSet put faults settle].
  eexists. split; reflexivity.
Qed.

Lemma act_invariant (a : Action) (p : Page) :
  pageInvariant p → pageInvariant (act a p).
Proof.
  intros Hp. destruct a as [|ev]; cbn [act].
  - apply mount_spec. destruct p as [w|ls]; cbn [storageOf]; [|done].
    destruct Hp as (Hlen & Hsync & _). intros q. rewrite Hsync.
    by intros [= <-].
  - destruct p as [w|ls]; [|done]. by apply dispatch_spec.
Qed.

Lemma reachable_invariant (p : Page) : reachable p → pageInvariant p.
Proof.
  induction 1 as [fs|a p _ IH]; [|by apply act_invariant].
  by intros q.
Qed.

(** C6.  In every mounted page reached from a browser whose storage holds
    neither key, by any sequence of loads of the page and of events
    (generate, enqueue, removal of a slot, reset of the sheet, deletion, ...),
    under any schedule of storage faults: the print queue has at most twenty
    items and the stored print queue is that queue; every event leaves a
    queue that is the former one with one item appended at its end, or the
    former one with items removed and the others in their order, and that
    has at most twenty items; and a load of the page restores the queue as
    it was. *)
Theorem printQueue_invariant (w : World) :
  reachable (Mounted w) →
  (0 ≤ length (printQueue (app w)) ≤ 20)%nat
  ∧ barcodegen_print_queue (localStorage w) = Some (Doc (printQueue (app w)))
  ∧ (∀ ev w', act (UI ev) (Mounted w) = Mounted w' →
       queueStep (printQueue (app w)) (printQueue (app w'))
       ∧ (length (printQueue (app w')) ≤ 20)%nat)
  ∧ (∀ w', act Open (Mounted w) = Mounted w' →
       printQueue (app w') = printQueue (app w)
       ∧ (length (printQueue (app w')) ≤ 20)%nat).
Proof.
  intros Hr. pose proof (reachable_invariant _ Hr) as Hinv.
  destruct Hinv as (Hlen & Hsync & Hflag).
  split_and!; [lia|done|done|..].
  - intros ev w' Hact. cbn [act] in Hact.
    destruct (dispatch_spec ev w) as [Hinv' Hstep]; [done|].
    rewrite Hact in Hinv'. split; [by apply Hstep|]. by destruct Hinv'.
  - intros w' Hact. cbn [act storageOf] in Hact.
    destruct (mount_spec (localStorage w)) as [Hinv' Hq].
    { intros q. rewrite Hsync. by intros [= <-]. }
    rewrite Hact in Hinv'. rewrite (Hq w' Hact), Hsync.
    split; [done|]. destruct Hinv' as [Hlen' _].
    by rewrite (Hq w' Hact), Hsync in Hlen'.
Qed.

(** * The scenarios of the specification, evaluated *)

Example candidate_low : candidate 0 = "100000000".
Proof. vm_compute. reflexivity. Qed.

Example candidate_high : candidate (9007199254740991 # 9007199254740992) = "999999999".
Proof. vm_compute. reflexivity. Qed.

Example trim_example : trim "  Asset 1 " = "Asset 1".
Proof. reflexivity. Qed.

(** Empty history, [generate("Asset 1")]: the entry has a nine-digit [id]
    and the label, the store holds it alone, and it is the current entry. *)
Example scenario_generate :
  let w := mkWorld (mkApp [] None " Asset 1" None []) (freshStorage []) false in
  let e := mkEntry "550000000" 1700000000000 (Some "Asset 1") CODE128 in
  let r := generateUniqueCode (λ _, 1 # 2)%Q 1700000000000 w in
  r.1 = Normal (Some e)
  ∧ history (app r.2) = [e]
  ∧ currentEntry (app r.2) = Some e
  ∧ (getHistory (localStorage r.2)).1 = Normal [e].
Proof. vm_compute. done. Qed.

(** History [A; B] with [A] selected: deleting [A] leaves [B], selected. *)
Example scenario_delete :
  let r := handleDelete "111111111" true (sampleWorld []) in
  r.1 = Normal ()
  ∧ history (app r.2) = [entryB]
  ∧ currentEntry (app r.2) = Some entryB
  ∧ printQueue (app r.2) = [mkItem entryB "p0q8m4z7c1700000002000"]
  ∧ storedHistory (localStorage r.2) = [entryB].
Proof. vm_compute. done. Qed.

(** A full queue, one slot removed, one enqueue: twenty items again. *)
Example scenario_refill :
  let slot i := mkItem entryA (toString (Z.of_nat i)) in
  let full := map slot (seq 0 20) in
  let w := mkWorld (mkApp [entryA] (Some entryA) "" None full)
                   (freshStorage []) false in
  let r := (removeFromQueue "7";; addToPrintQueue (Some entryA) "k3f9x2a1b" 1700000000000) w in
  length (printQueue (app (addToPrintQueue (Some entryA) "k3f9x2a1b" 1700000000000 w).2)) = 20%nat
  ∧ length (printQueue (app (removeFromQueue "7" w).2)) = 19%nat
  ∧ length (printQueue (app r.2)) = 20%nat
  ∧ last (printQueue (app r.2)) = Some (mkItem entryA "k3f9x2a1b1700000000000").
Proof. vm_compute. done. Qed.

(** * Where the code departs from the specification *)

(** C2 as stated fails: when the write of the store fails (here the second
    access), a confirmed deletion of [A] leaves [A] in the history and in
    the store. *)
Lemma handleDelete_write_fault_keeps_record :
  ¬ deletedEverywhere "111111111"
      (handleDelete "111111111" true (sampleWorld [false; true])).2.
Proof.
  assert (history (app (handleDelete "111111111" true
                          (sampleWorld [false; true])).2) = [entryA; entryB])
    as E by (vm_compute; reflexivity).
  intros [H _]. apply H. rewrite E. unfold ids. simpl. left.
Qed.

(** C4 as stated fails: when the write fails the saved entry is not stored,
    let alone first; and when the read of a second save of the same entry
    fails, the stored history shrinks to that entry. *)
Lemma saveEntry_fault_breaks_save :
  ¬ savedFirst entryA (mkStorage (Some (Doc (Arr [entryB]))) None [false; true])
  ∧ ¬ resaveKeepsLength entryA
        (mkStorage (Some (Doc (Arr [entryA; entryB]))) None [true]).
Proof. split; vm_compute; discriminate. Qed.

(** C8 as stated fails: an enqueue without an entry shows no error. *)
Lemma addToPrintQueue_absent_silent :
  ¬ surfacesError (addToPrintQueue None "k3f9x2a1b" 1700000000000 emptyWorld).2.
Proof. intros [text H]. vm_compute in H. discriminate. Qed.

(** C9 as stated fails: two insertions with the same random token at the
    same clock reading have the same [printId]. *)
Lemma enqueueTwice_same_printId :
  ¬ distinctPrintIds
      (printQueue (app (enqueueTwice entryA "k3f9x2a1b" 1700000000000
                                     "k3f9x2a1b" 1700000000000 emptyWorld).2)).
Proof.
  assert (map printId (printQueue (app (enqueueTwice entryA "k3f9x2a1b"
            1700000000000 "k3f9x2a1b" 1700000000000 emptyWorld).2))
          = ["k3f9x2a1b1700000000000"; "k3f9x2a1b1700000000000"])
    as E by (vm_compute; reflexivity).
  unfold distinctPrintIds. rewrite E. intros H.
  apply NoDup_cons in H as [H _]. apply H. left.
Qed.

(** * The theorems at concrete inputs *)


Lemma generateUniqueCode_exhausted_witness :
  ∃ w', generateUniqueCode (λ _, 0)%Q 1700000000000
          (mkWorld (mkApp [mkEntry "100000000" 0 None CODE128] None "x" None [])
                   (freshStorage []) false)
        = (Normal None, w')
        ∧ history (app w') = [mkEntry "100000000" 0 None CODE128].
Proof.
  destruct (generateUniqueCode_exhausted (λ _, 0)%Q 1700000000000
    (mkWorld (mkApp [mkEntry "100000000" 0 None CODE128] None "x" None [])
             (freshStorage []) false))
    as (_ & _ & w' & Hr & _ & Hh & _).
  - intros i _. vm_compute. left.
  - exists w'. split; assumption.
Defined.

Lemma addToPrintQueue_capacity_witness :
  printQueue (app (addToPrintQueue (Some entryA) "k3f9x2a1b" 1700000000000
                     emptyWorld).2)
  = [mkItem entryA ("k3f9x2a1b" +:+ toString 1700000000000)].
Proof.
  destruct (addToPrintQueue_capacity entryA "k3f9x2a1b" 1700000000000 emptyWorld)
    as (_ & _ & Hroom & _).
  destruct Hroom as (Hq & _); [simpl; lia|]. exact Hq.
Defined.

Lemma enqueueTwice_items_witness :
  ∃ w' item1 item2,
    enqueueTwice entryA "k3f9x2a1b" 1700000000000 "p0q8m4z7c" 1700000000000
      emptyWorld = (Normal (), w')
    ∧ printQueue (app w') = [item1; item2]
    ∧ printId item1 ≠ printId item2.
Proof.
  destruct (enqueueTwice_items entryA "k3f9x2a1b" 1700000000000
              "p0q8m4z7c" 1700000000000 emptyWorld)
    as (w' & item1 & item2 & Hr & Hq & _ & _ & _ & _ & _ & _ & _ & _ & Hne).
  - simpl. lia.
  - exists w', item1, item2. split; [exact Hr|]. split; [exact Hq|].
    apply Hne; [discriminate|]. left. reflexivity.
Defined.

Lemma handleDelete_confirmed_witness :
  ∃ w', handleDelete "111111111" true (sampleWorld []) = (Normal (), w')
        ∧ deletedEverywhere "111111111" w'.
Proof.
  destruct (handleDelete_confirmed "111111111" (sampleWorld []))
    as [(w' & Hr & _ & _ & _ & Hw) _].
  exists w'. split; [exact Hr|]. apply Hw. reflexivity.
Defined.

Lemma saveEntry_replaces_and_prepends_witness :
  storedHistory
    (saveEntry entryA (mkStorage (Some (Doc (Arr [entryB; entryA]))) None [])).2
  = [entryA; entryB].
Proof.
  destruct (saveEntry_replaces_and_prepends entryA
              (mkStorage (Some (Doc (Arr [entryB; entryA]))) None []))
    as (Heq & _).
  - split; reflexivity.
  - rewrite Heq. vm_compute. reflexivity.
Defined.

Lemma deleteEntry_write_failure_witness :
  (deleteEntry "111111111"
     (mkStorage (Some (Doc (Arr [entryA; entryB]))) None [false; true])).1
  = Normal [entryA; entryB].
Proof.
  destruct (deleteEntry_write_failure "111111111"
              (mkStorage (Some (Doc (Arr [entryA; entryB]))) None [false; true]))
    as (_ & _ & Hread).
  - reflexivity.
  - destruct Hread as [Hr _]; [reflexivity|]. exact Hr.
Defined.

Lemma printQueue_invariant_witness :
  ∃ w, act (UI (AddToSheet (Some entryA) "k3f9x2a1b" 1700000000000))
           (act Open (Unmounted (freshStorage [true; false])))
       = Mounted w
       ∧ length (printQueue (app w)) = 1%nat
       ∧ barcodegen_print_queue (localStorage w) = Some (Doc (printQueue (app w))).
Proof.
  eexists. split; [vm_compute; reflexivity|]. split; [reflexivity|].
  refine (proj1 (proj2 (printQueue_invariant _ _))).
  match goal with
  | |- reachable ?p =>
      change (reachable
        (act (UI (AddToSheet (Some entryA) "k3f9x2a1b" 1700000000000))
             (act Open (Unmounted (freshStorage [true; false])))))
  end.
  do 2 apply reachable_act. apply reachable_fresh.
Defined.

(** * Further properties of the code *)

(** ** The store without faults *)

Lemma nextFault_faultFree (ls : LocalStorage) : faults ls = [] → nextFault ls = false.
Proof. unfold nextFault. by intros ->. Qed.

Lemma tick_faultFree (ls : LocalStorage) : faults ls = [] → tick ls = ls.
Proof. destruct ls as [h q fs]. unfold tick. simpl. by intros ->. Qed.

Lemma getHistory_faultFree (ls : LocalStorage) :
  faults ls = [] → getHistory ls = (Normal (storedHistory ls), ls).
Proof.
  intros Hf. rewrite getHistory_eq.
  by rewrite nextFault_faultFree, tick_faultFree by done.
Qed.

Lemma saveEntry_faultFree (e : BarcodeEntry) (ls : LocalStorage) :
  faults ls = [] →
  saveEntry e ls
  = (Normal (),
     put STORAGE_KEY
       (Some (Doc (Arr (e :: filter (λ x, id x ≠ id e) (storedHistory ls))))) ls).
Proof.
  intros Hf. rewrite saveEntry_eq. cbv zeta.
  by rewrite !tick_faultFree, !nextFault_faultFree by done.
Qed.

Lemma deleteEntry_faultFree (id0 : string) (ls : LocalStorage) :
  faults ls = [] →
  deleteEntry id0 ls
  = (Normal (filter (λ x, id x ≠ id0) (storedHistory ls)),
     put STORAGE_KEY
       (Some (Doc (Arr (filter (λ x, id x ≠ id0) (storedHistory ls))))) ls).
Proof.
  intros Hf. rewrite deleteEntry_eq. cbv zeta.
  by rewrite !tick_faultFree, !nextFault_faultFree by done.
Qed.

Lemma storedHistory_stored (l : list BarcodeEntry) (ls : LocalStorage) :
  storedHistory (put STORAGE_KEY (Some (Doc (Arr l))) ls) = l.
Proof. reflexivity. Qed.

Lemma filter_ids_absent (i : string) (l : list BarcodeEntry) :
  i ∉ ids (filter (λ x, id x ≠ i) l).
Proof.
  unfold ids. intros Hin. apply list_elem_of_fmap in Hin as (x & Hid & Hin).
  apply list_elem_of_filter in Hin as [Hne _]. by apply Hne.
Qed.

(** X1.  When its read and its write succeed, [deleteEntry id0] returns the
    list it has just stored, which is the list stored before without the
    records of that identifier, the others in their order; an identifier
    that is not stored leaves the list as it is. *)
Theorem deleteEntry_removes (id0 : string) (ls : LocalStorage) :
  unfaulted ls →
  let r := deleteEntry id0 ls in
  r.1 = Normal (filter (λ x, id x ≠ id0) (storedHistory ls))
  ∧ r.1 = Normal (storedHistory r.2)
  ∧ (id0 ∉ ids (storedHistory r.2))
  ∧ storedHistory r.2 `sublist_of` storedHistory ls
  ∧ (id0 ∉ ids (storedHistory ls) → storedHistory r.2 = storedHistory ls).
Proof.
  intros [Hr Hw] r. subst r. rewrite deleteEntry_eq. cbv zeta.
  rewrite Hr, Hw. cbn [fst snd]. rewrite !storedHistory_stored.
  split_and!; try done.
  - apply filter_ids_absent.
  - apply sublist_filter.
  - apply filter_absent_id.
Qed.

(** X2.  On a storage without faults, saving an entry and then deleting its
    identifier leaves the records of the other identifiers; when the
    identifier was not stored before, the stored list is the one before the
    two calls. *)
Theorem saveEntry_deleteEntry_roundtrip (e : BarcodeEntry) (ls : LocalStorage) :
  faults ls = [] →
  let r := deleteEntry (id e) (saveEntry e ls).2 in
  r.1 = Normal (filter (λ x, id x ≠ id e) (storedHistory ls))
  ∧ storedHistory r.2 = filter (λ x, id x ≠ id e) (storedHistory ls)
  ∧ (id e ∉ ids (storedHistory ls) →
     r.1 = Normal (storedHistory ls) ∧ storedHistory r.2 = storedHistory ls).
Proof.
  intros Hf r. subst r. rewrite saveEntry_faultFree by done. cbn [snd].
  rewrite deleteEntry_faultFree by done. cbn [fst snd].
  rewrite !storedHistory_stored.
  rewrite filter_cons, decide_False by (intros H; by apply H).
  rewrite filter_other_id_idem.
  split_and!; try done.
  intros Hfresh. by rewrite filter_absent_id.
Qed.

(** X3.  On a storage without faults, two saves of entries with different
    identifiers leave the second entry first and the first entry second,
    followed by the records stored before under other identifiers; this is
    what [getHistory] then returns. *)
Theorem saveEntry_twice_order (e1 e2 : BarcodeEntry) (ls : LocalStorage) :
  faults ls = [] → id e1 ≠ id e2 →
  (getHistory (saveEntry e2 (saveEntry e1 ls).2).2).1
  = Normal (e2 :: e1 :: filter (λ x, id x ≠ id e2)
                          (filter (λ x, id x ≠ id e1) (storedHistory ls))).
Proof.
  intros Hf Hne. rewrite (saveEntry_faultFree e1 ls) by done. cbn [snd].
  rewrite saveEntry_faultFree by done. cbn [snd].
  rewrite getHistory_faultFree by done. cbn [fst].
  rewrite !storedHistory_stored.
  by rewrite filter_cons, decide_True.
Qed.

(** X4.  When its access succeeds, [clearHistory] removes the history key:
    [getHistory] then returns the empty list; and whether the access
    succeeds or not the stored print queue is left as it is. *)
Theorem clearHistory_empties (ls : LocalStorage) :
  (nextFault ls = false →
   (clearHistory ls).1 = Normal ()
   ∧ barcodegen_history_v1 (clearHistory ls).2 = None
   ∧ (getHistory (clearHistory ls).2).1 = Normal [])
  ∧ barcodegen_print_queue (clearHistory ls).2 = barcodegen_print_queue ls.
Proof.
  rewrite clearHistory_eq. split.
  - intros ->. cbn [fst snd]. split_and!; try done.
    rewrite getHistory_eq. cbn [fst]. by destruct (nextFault _).
  - by destruct (nextFault ls).
Qed.

(** X5.  A failed read is taken for an empty history and written back: when
    the read of [saveEntry] fails and its write succeeds, the store holds
    the saved entry alone afterwards, whatever it held before; when the read
    of [deleteEntry] fails and its write succeeds, the store holds the empty
    list and the empty list is returned. *)
Theorem read_fault_overwrites_history (e : BarcodeEntry) (id0 : string)
    (ls : LocalStorage) :
  nextFault ls = true → nextFault (tick ls) = false →
  barcodegen_history_v1 (saveEntry e ls).2 = Some (Doc (Arr [e]))
  ∧ deleteEntry id0 ls
    = (Normal [], put STORAGE_KEY (Some (Doc (Arr []))) (tick (tick ls))).
Proof.
  intros Hr Hw. rewrite saveEntry_eq, deleteEntry_eq. cbv zeta.
  by rewrite Hr, Hw.
Qed.

(** No operation of the store changes the stored print queue, and
    [getHistory] changes neither stored string. *)
Lemma storageService_frame (ls : LocalStorage) :
  (barcodegen_print_queue (getHistory ls).2 = barcodegen_print_queue ls
   ∧ barcodegen_history_v1 (getHistory ls).2 = barcodegen_history_v1 ls)
  ∧ (∀ e, barcodegen_print_queue (saveEntry e ls).2 = barcodegen_print_queue ls)
  ∧ (∀ id0, barcodegen_print_queue (deleteEntry id0 ls).2 = barcodegen_print_queue ls)
  ∧ barcodegen_print_queue (clearHistory ls).2 = barcodegen_print_queue ls.
Proof.
  split_and!.
  - by rewrite getHistory_eq.
  - by rewrite getHistory_eq.
  - intros e. apply saveEntry_queue.
  - intros id0. apply deleteEntry_queue.
  - rewrite clearHistory_eq. by destruct (nextFault ls).
Qed.

(** ** The allocator, further *)

Lemma probe_first_fresh (budget : nat) (existingIds : gset string)
    (draws : nat → Q) :
  ∀ attempts code0 i,
    (attempts ≤ i < attempts + budget)%nat →
    (∀ j, (attempts ≤ j < i)%nat → candidate (draws j) ∈ existingIds) →
    candidate (draws i) ∉ existingIds →
    probe budget existingIds draws attempts code0
    = (candidate (draws i), true, S i).
Proof.
  induction budget as [|b IH]; intros attempts code0 i Hi Hbefore Hfresh; [lia|].
  simpl. destruct (decide (i = attempts)) as [->|Hne].
  - by rewrite decide_False.
  - rewrite decide_True by (apply Hbefore; lia).
    apply IH; [lia| |done]. intros j Hj. apply Hbefore. lia.
Qed.

(** X6.  The allocator takes the first draw whose candidate is not the [id]
    of an entry of the history: when the candidates of the draws before the
    [i]-th collide and that of the [i]-th does not ([i] below [maxAttempts]),
    the loop ends after [i + 1] attempts and the new entry has the
    candidate of the [i]-th draw as its [id]. *)
Theorem generateUniqueCode_first_fresh (draws : nat → Q) (now : Z) (w : World)
    (i : nat) :
  (i < maxAttempts)%nat →
  (∀ j, (j < i)%nat → candidate (draws j) ∈ ids (history (app w))) →
  candidate (draws i) ∉ ids (history (app w)) →
  probe maxAttempts (list_to_set (ids (history (app w)))) draws 0 ""
  = (candidate (draws i), true, S i)
  ∧ ∃ e w', generateUniqueCode draws now w = (Normal (Some e), w')
            ∧ id e = candidate (draws i).
Proof.
  intros Hi Hbefore Hfresh.
  assert (probe maxAttempts (list_to_set (ids (history (app w)))) draws 0 ""
          = (candidate (draws i), true, S i)) as Hp.
  { apply probe_first_fresh; [lia| |].
    - intros j Hj. apply elem_of_list_to_set, Hbefore. lia.
    - intros Hin. apply Hfresh. by apply elem_of_list_to_set in Hin. }
  split; [done|].
  rewrite generateUniqueCode_eq. cbv zeta.
  change (map (λ h, String_of (id h)) (history (app w)))
    with (ids (history (app w))).
  rewrite Hp. cbn [fst snd]. eauto.
Qed.

(** X7.  A successful [generateUniqueCode] on a storage without faults
    stores the new entry in front of the records stored before under other
    identifiers; when the history was the stored list before the call it is
    the stored list after it, and [getHistory] returns it. *)
Theorem generateUniqueCode_persists (draws : nat → Q) (now : Z)
    (w w' : World) (e : BarcodeEntry) :
  faults (localStorage w) = [] →
  generateUniqueCode draws now w = (Normal (Some e), w') →
  storedHistory (localStorage w')
  = e :: filter (λ x, id x ≠ id e) (storedHistory (localStorage w))
  ∧ barcodegen_print_queue (localStorage w')
    = barcodegen_print_queue (localStorage w)
  ∧ (history (app w) = storedHistory (localStorage w) →
     history (app w') = storedHistory (localStorage w')
     ∧ (getHistory (localStorage w')).1 = Normal (e :: history (app w))).
Proof.
  intros Hf. rewrite generateUniqueCode_eq. cbv zeta.
  destruct (probe maxAttempts _ draws 0 "") as [[code isUnique] attempts] eqn:Hp.
  cbn [fst snd]. destruct isUnique; [|done].
  intros [= <- <-]. cbn [id app history localStorage].
  apply probe_unique in Hp as (Hfresh & _).
  rewrite saveEntry_faultFree by done. cbn [snd id].
  rewrite storedHistory_stored. split_and!; try done.
  intros Hmirror.
  assert (filter (λ x, id x ≠ code) (storedHistory (localStorage w))
          = storedHistory (localStorage w)) as Hsame.
  { apply filter_absent_id. rewrite <- Hmirror. intros Hin. apply Hfresh.
    by apply elem_of_list_to_set. }
  rewrite Hsame, Hmirror. split; [done|].
  by rewrite getHistory_faultFree, storedHistory_stored.
Qed.

(** X8.  A successful [generateUniqueCode] empties the label input and shows
    the new identifier in a success message: an entry generated next,
    without typing, has no label. *)
Theorem generateUniqueCode_resets_label (draws draws2 : nat → Q) (now now2 : Z)
    (w w' w'' : World) (e e2 : BarcodeEntry) :
  generateUniqueCode draws now w = (Normal (Some e), w') →
  labelInput (app w') = ""
  ∧ statusMessage (app w') = Some (success, "Generated " +:+ id e)
  ∧ (generateUniqueCode draws2 now2 w' = (Normal (Some e2), w'') →
     label e2 = None ∧ id e2 ≠ id e).
Proof.
  rewrite generateUniqueCode_eq. cbv zeta.
  destruct (probe maxAttempts _ draws 0 "") as [[code isUnique] attempts].
  cbn [fst snd]. destruct isUnique; [|done].
  intros [= <- <-]. cbn [id app labelInput statusMessage].
  split_and!; try done.
  rewrite generateUniqueCode_eq. cbv zeta. cbn [app history labelInput].
  destruct (probe maxAttempts _ draws2 0 "")
    as [[code2 isUnique2] attempts2] eqn:Hp2.
  cbn [fst snd]. destruct isUnique2; [|done].
  intros [= <- _]. cbn [label id]. split; [done|].
  apply probe_unique in Hp2 as (Hfresh & _).
  intros ->. apply Hfresh. apply elem_of_list_to_set. simpl. left.
Qed.

(** X9.  The label of a generated entry is the label input without the
    white space around it: the input is white space, the label, white
    space; the label neither begins nor ends with white space; and the
    entry has no label exactly when the input is white space only. *)
Theorem generateUniqueCode_label_trimmed (draws : nat → Q) (now : Z)
    (w w' : World) (e : BarcodeEntry) :
  generateUniqueCode draws now w = (Normal (Some e), w') →
  match label e with
  | Some l =>
      l ≠ ""
      ∧ (∃ pre post, labelInput (app w) = pre +:+ (l +:+ post)
           ∧ allWhiteSpace pre = true ∧ allWhiteSpace post = true)
      ∧ (∀ c t, l = String c t → isWhiteSpace c = false)
      ∧ (∀ t c, l = t +:+ String c "" → isWhiteSpace c = false)
  | None => allWhiteSpace (labelInput (app w)) = true
  end.
Proof.
  rewrite generateUniqueCode_eq. cbv zeta.
  destruct (probe maxAttempts _ draws 0 "") as [[code isUnique] attempts].
  cbn [fst snd]. destruct isUnique; [|done].
  intros [= <- _]. cbn [label]. unfold or_undefined.
  case_decide as Hl.
  - by apply trim_empty_iff.
  - destruct (trim_spec (labelInput (app w)))
      as (pre & post & Heq & Hpre & Hpost & Hhd & Hlast).
    split_and!; eauto.
Qed.

(** ** The print queue, further *)

Lemma removeFromQueue_eq (printId0 : string) (w : World) :
  removeFromQueue printId0 w
  = let a := app w in
    (Normal (),
     mkWorld (mkApp (history a) (currentEntry a) (labelInput a) (statusMessage a)
                    (filter (λ item, printId item ≠ printId0) (printQueue a)))
             (localStorage w) true).
Proof. reflexivity. Qed.

Lemma filter_printId_absent (p : string) (q : list QueueItem) :
  p ∉ map printId q → filter (λ item, printId item ≠ p) q = q.
Proof.
  induction q as [|x q IH]; [done|]. simpl.
  rewrite not_elem_of_cons. intros [Hx Hq].
  rewrite filter_cons, decide_True by congruence. by rewrite IH.
Qed.

(** X11.  [removeFromQueue printId0] completes normally and removes the
    items with that [printId], the others keeping their order; a [printId]
    that is not in the queue leaves the queue as it is; when the [printId]s
    of the queue are pairwise distinct and the given one is among them,
    exactly one item goes.  The history, the current entry, the status
    message and the storage are not touched. *)
Theorem removeFromQueue_removes (printId0 : string) (w : World) :
  let q := printQueue (app w) in
  let r := removeFromQueue printId0 w in
  let q' := printQueue (app r.2) in
  r.1 = Normal ()
  ∧ q' = filter (λ item, printId item ≠ printId0) q
  ∧ (printId0 ∉ map printId q')
  ∧ q' `sublist_of` q
  ∧ (printId0 ∉ map printId q → q' = q)
  ∧ (distinctPrintIds q → printId0 ∈ map printId q → S (length q') = length q)
  ∧ history (app r.2) = history (app w)
  ∧ currentEntry (app r.2) = currentEntry (app w)
  ∧ statusMessage (app r.2) = statusMessage (app w)
  ∧ localStorage r.2 = localStorage w.
Proof.
  intros q r q'. subst r q'. rewrite removeFromQueue_eq. cbv zeta.
  cbn [fst snd app printQueue history currentEntry statusMessage localStorage].
  fold q. split_and!; try done.
  - intros Hin. apply list_elem_of_fmap in Hin as (item & Hid & Hin).
    apply list_elem_of_filter in Hin as [Hne _]. by apply Hne.
  - apply sublist_filter.
  - apply filter_printId_absent.
  - unfold distinctPrintIds. clear. induction q as [|x q IH]; simpl.
    + intros _ Hin. by apply elem_of_nil in Hin.
    + rewrite NoDup_cons, elem_of_cons. intros [Hx Hq] Hin.
      rewrite filter_cons. case_decide as Hne; simpl.
      * destruct Hin as [->|Hin]; [done|]. by rewrite IH.
      * subst printId0. by rewrite filter_printId_absent.
Qed.

(** X12.  On a queue with room, adding an entry to the sheet and removing
    the slot just added gives back the queue as it was, provided the new
    [printId] was not already that of a queued item. *)
Theorem addToPrintQueue_removeFromQueue_roundtrip (e : BarcodeEntry)
    (token : string) (now : Z) (w : World) :
  (length (printQueue (app w)) < 20)%nat →
  token +:+ toString now ∉ map printId (printQueue (app w)) →
  let r := (addToPrintQueue (Some e) token now;;
            removeFromQueue (token +:+ toString now)) w in
  r.1 = Normal ()
  ∧ printQueue (app r.2) = printQueue (app w)
  ∧ history (app r.2) = history (app w)
  ∧ currentEntry (app r.2) = currentEntry (app w)
  ∧ localStorage r.2 = localStorage w.
Proof.
  intros Hroom Hfresh r. subst r. cbv [mbind M_bind].
  rewrite addToPrintQueue_eq. cbv zeta.
  rewrite (proj2 (Nat.leb_gt 20 _)) by done.
  rewrite removeFromQueue_eq. cbv zeta.
  cbn [fst snd app printQueue history currentEntry localStorage].
  split_and!; try done.
  rewrite filter_app, filter_printId_absent by done.
  rewrite filter_cons, decide_False by (intros H; by apply H).
  by rewrite filter_nil, app_nil_r.
Qed.

(** ** Deletion, further *)

(** X13.  When the read and the write of the store succeed, a confirmed
    [handleDelete] replaces the history by the stored list without the
    records of the identifier, whatever the history was: an entry that is in
    the history but not in the store is gone afterwards.  When the history
    was the stored list, the entries of other identifiers are kept, in their
    order. *)
Theorem handleDelete_resynchronises (id0 : string) (w : World) :
  unfaulted (localStorage w) →
  let w' := (handleDelete id0 true w).2 in
  history (app w')
  = filter (λ x, id x ≠ id0) (storedHistory (localStorage w))
  ∧ history (app w') = storedHistory (localStorage w')
  ∧ (∀ e, e ∈ history (app w') → e ∈ storedHistory (localStorage w))
  ∧ (history (app w) = storedHistory (localStorage w) →
     history (app w') = filter (λ x, id x ≠ id0) (history (app w))
     ∧ history (app w') `sublist_of` history (app w)).
Proof.
  intros [Hr Hw] w'. subst w'.
  rewrite (handleDelete_eq id0 w
             (filter (λ x, id x ≠ id0) (storedHistory (localStorage w)))
             (put STORAGE_KEY
                (Some (Doc (Arr (filter (λ x, id x ≠ id0)
                                   (storedHistory (localStorage w))))))
                (tick (tick (localStorage w))))).
  2: { rewrite deleteEntry_eq. cbv zeta. by rewrite Hr, Hw. }
  cbv zeta. cbn [snd app history localStorage].
  rewrite storedHistory_stored. split_and!; try done.
  - intros e He. by apply list_elem_of_filter in He as [_ He].
  - intros ->. split; [done|]. apply sublist_filter.
Qed.

(** ** Loading and persisting, further *)

Lemma mount_faultFree (ls : LocalStorage) :
  faults ls = [] →
  ∃ w', mount (mkWorld initialApp ls false) = (Normal (), w')
    ∧ history (app w') = storedHistory ls
    ∧ currentEntry (app w') = head (storedHistory ls)
    ∧ printQueue (app w') = storedQueue ls
    ∧ labelInput (app w') = ""
    ∧ statusMessage (app w') = None
    ∧ barcodegen_history_v1 (localStorage w') = barcodegen_history_v1 ls
    ∧ barcodegen_print_queue (localStorage w') = Some (Doc (storedQueue ls))
    ∧ queueSet w' = false
    ∧ faults (localStorage w') = [].
Proof.
  intros Hf. unfold mount, storedQueue. cbv [mbind M_bind].
  rewrite loadEffect_eq. cbv zeta.
  cbn [localStorage app queueSet initialApp printQueue currentEntry
       labelInput statusMessage].
  rewrite !tick_faultFree, !nextFault_faultFree by done.
  assert ((if (0 <? length (storedHistory ls))%nat
           then head (storedHistory ls) else None) = head (storedHistory ls))
    as ->.
  { by destruct (storedHistory ls). }
  destruct (barcodegen_print_queue ls) as [[s|q]|] eqn:Hq;
    rewrite persistEffect_eq; cbn [localStorage app queueSet];
    rewrite ?tick_faultFree, ?nextFault_faultFree by done;
    rewrite runEffects_eq; cbn [localStorage app queueSet printQueue];
    rewrite ?tick_faultFree, ?nextFault_faultFree by done;
    eexists; (split; [reflexivity|]); by split_and!.
Qed.

(** X14.  On a storage without faults the page mounts: the history is the
    stored list, the current entry its first element (none when it is
    empty), the print queue the stored queue (empty when the key is absent
    or its string does not parse), the label input is empty and no message
    is shown.  The stored history string is not written; the stored print
    queue is, and is the queue afterwards, so that a string that did not
    parse is replaced. *)
Theorem mount_restores (ls : LocalStorage) :
  faults ls = [] →
  ∃ w', mount (mkWorld initialApp ls false) = (Normal (), w')
    ∧ history (app w') = storedHistory ls
    ∧ currentEntry (app w') = head (storedHistory ls)
    ∧ printQueue (app w') = storedQueue ls
    ∧ labelInput (app w') = ""
    ∧ statusMessage (app w') = None
    ∧ barcodegen_history_v1 (localStorage w') = barcodegen_history_v1 ls
    ∧ barcodegen_print_queue (localStorage w') = Some (Doc (storedQueue ls))
    ∧ queueSet w' = false.
Proof.
  intros Hf.
  destruct (mount_faultFree ls Hf)
    as (w' & Hm & Hh & Hc & Hq & Hl & Hs & Hhs & Hqs & Hflag & _).
  exists w'. by split_and!.
Qed.

(** X15.  The effects do not catch what the storage throws.  [loadEffect]
    throws when its read of the print-queue key fails, whether or not its
    read of the history failed before; [persistEffect] throws when its
    write fails, and so does an event that sets the print queue, here an
    enqueue on a queue with room: in each case the stored strings are those
    before. *)
Theorem effects_propagate_faults (w : World) :
  (nextFault (tick (localStorage w)) = true →
   (loadEffect w).1 = Throw DOMException
   ∧ barcodegen_history_v1 (localStorage (loadEffect w).2)
     = barcodegen_history_v1 (localStorage w)
   ∧ barcodegen_print_queue (localStorage (loadEffect w).2)
     = barcodegen_print_queue (localStorage w))
  ∧ (nextFault (localStorage w) = true →
     (∀ rendered,
        persistEffect rendered w
        = (Throw DOMException,
           mkWorld (app w) (tick (localStorage w)) (queueSet w)))
     ∧ ∀ e token now,
         (length (printQueue (app w)) < 20)%nat →
         (dispatch (AddToSheet (Some e) token now) w).1 = Throw DOMException
         ∧ barcodegen_print_queue
             (localStorage (dispatch (AddToSheet (Some e) token now) w).2)
           = barcodegen_print_queue (localStorage w)).
Proof.
  split.
  - intros Hq. rewrite loadEffect_eq. cbv zeta. by rewrite Hq.
  - intros Hw. split.
    + intros rendered. by rewrite persistEffect_eq, Hw.
    + intros e token now Hroom. unfold dispatch. cbv [mbind M_bind].
      cbn [handler]. rewrite addToPrintQueue_eq. cbv zeta.
      rewrite (proj2 (Nat.leb_gt 20 _)) by done.
      rewrite runEffects_eq. cbn [queueSet localStorage]. by rewrite Hw.
Qed.

(** ** The sheet and printing *)





Lemma handlePrint_eq (activeTab : Tab) (w : World) :
  handlePrint activeTab w
  = let a := app w in
    let refuse text :=
      (Normal false,
       mkWorld (mkApp (history a) (currentEntry a) (labelInput a)
                      (Some (error, text)) (printQueue a))
               (localStorage w) (queueSet w)) in
    if decide (activeTab = sheet ∧ length (printQueue a) = 0%nat)
    then refuse "Sheet is empty. Add barcodes first."
    else if decide (activeTab = generator ∧ currentEntry a = None)
         then refuse "No barcode selected to print."
         else (Normal true, w).
Proof.
  unfold handlePrint. run_app.
  destruct (decide (activeTab = sheet ∧ _)); [done|].
  by destruct (decide (activeTab = generator ∧ _)).
Qed.

(** X17.  [handlePrint] calls [window.print()] only when the print area has
    something on it: the label of the current entry, or a sheet whose first
    slot is filled; the state is then left as it is.  Otherwise it shows an
    error message and leaves the history, the current entry, the print
    queue and the storage as they are. *)
Theorem handlePrint_prints_something (activeTab : Tab) (w : World) :
  let r := handlePrint activeTab w in
  (r.1 = Normal true ∨ r.1 = Normal false)
  ∧ (r.1 = Normal true →
     r.2 = w
     ∧ match printArea activeTab (app w) with
       | SingleLabel c => activeTab = generator ∧ currentEntry (app w) = Some c
       | SheetGrid slots =>
           activeTab = sheet
           ∧ ∃ item, slots !! 0%nat = Some (Some item)
                     ∧ printQueue (app w) !! 0%nat = Some item
       end)
  ∧ (r.1 = Normal false →
     (∃ text, statusMessage (app r.2) = Some (error, text))
     ∧ history (app r.2) = history (app w)
     ∧ currentEntry (app r.2) = currentEntry (app w)
     ∧ printQueue (app r.2) = printQueue (app w)
     ∧ localStorage r.2 = localStorage w).
Proof.
  intros r. subst r. rewrite handlePrint_eq. cbv zeta.
  destruct (decide (activeTab = sheet ∧ _)) as [|Hsheet];
    [|destruct (decide (activeTab = generator ∧ _)) as [|Hgen]];
    cbn [fst snd app history currentEntry printQueue statusMessage
         localStorage];
    (split; [auto|]); (split; [|by eauto 10]); try done.
  intros _. split; [done|]. unfold printArea.
  destruct activeTab.
  - destruct (currentEntry (app w)) as [c|] eqn:Hc; [done|].
    exfalso. by apply Hgen.
  - split; [done|]. destruct (printQueue (app w)) as [|item q'] eqn:Hq.
    + exfalso. by apply Hsheet.
    + exists item. done.
Qed.

(** ** The page without faults *)

Lemma handler_coherent (ev : Event) (w w1 : World) :
  coherent w → wired w ev → handler ev w = (Normal (), w1) → coherent w1.
Proof.
  intros (Hf & Hmirror & Hnone & Hcur & Hqueue) Hwired.
  destruct ev as [draws now|value|index|entry0 token now|pid|[]|id0 []|];
    cbn [handler].
  - cbv [mbind M_bind mret M_ret]. rewrite generateUniqueCode_eq. cbv zeta.
    destruct (probe maxAttempts _ draws 0 "") as [[code isUnique] attempts] eqn:Hp.
    cbn [fst snd]. destruct isUnique; intros [= <-]; [|by split_and!].
    apply probe_unique in Hp as (Hfresh & _).
    unfold coherent. cbn [app localStorage history currentEntry printQueue].
    rewrite saveEntry_faultFree by done. cbn [snd id].
    rewrite storedHistory_stored, <- Hmirror.
    rewrite filter_absent_id.
    2: { intros Hin. apply Hfresh. by apply elem_of_list_to_set. }
    split_and!; try done.
    + intros c [= <-]. left.
    + intros item Hin. right. by apply Hqueue.
  - intros [= <-]. by split_and!.
  - run_app. destruct (history (app w) !! index) as [e|] eqn:Hl;
      intros [= <-]; [|by split_and!].
    unfold coherent. cbn [app localStorage history currentEntry printQueue].
    split_and!; try done.
    + intros c [= <-]. by eapply list_elem_of_lookup_2.
  - destruct Hwired as (e & -> & He).
    rewrite addToPrintQueue_eq. cbv zeta.
    destruct (20 <=? length (printQueue (app w)))%nat; intros [= <-];
      [by split_and!|].
    unfold coherent. cbn [app localStorage history currentEntry printQueue].
    split_and!; try done.
    intros item Hin. apply elem_of_app in Hin as [Hin|Hin]; [by apply Hqueue|].
    apply list_elem_of_singleton in Hin as ->. cbn [entry].
    destruct He as [He|He]; [done|by apply Hcur].
  - intros [= <-]. split_and!; try done.
    intros item Hin. cbn [app printQueue] in Hin.
    apply list_elem_of_filter in Hin as [_ Hin]. by apply Hqueue.
  - intros [= <-]. split_and!; try done.
    intros item Hin. by apply elem_of_nil in Hin.
  - intros [= <-]. by split_and!.
  - rewrite (handleDelete_eq id0 w _ _ (deleteEntry_faultFree id0 _ Hf)).
    cbv zeta. intros [= <-].
    unfold coherent. cbn [app localStorage history currentEntry printQueue].
    rewrite <- Hmirror.
    split_and!; try done.
    + destruct (currentEntry (app w)) as [c|] eqn:Hc.
      * case_decide as Hid; [by destruct (filter _ _)|done].
      * intros _. by rewrite (Hnone eq_refl).
    + intros c'. destruct (currentEntry (app w)) as [c|] eqn:Hc; [|done].
      case_decide as Hid.
      * intros Hhd. by apply head_Some_elem_of.
      * intros [= <-]. apply list_elem_of_filter. split; [done|by apply Hcur].
    + intros item Hin. apply list_elem_of_filter in Hin as [Hne Hin].
      apply list_elem_of_filter. split; [done|by apply Hqueue].
  - intros [= <-]. by split_and!.
  - intros [= <-]. by split_and!.
Qed.

Lemma handler_faultFree (ev : Event) (w w1 : World) :
  coherent w → wired w ev → handler ev w = (Normal (), w1) →
  faults (localStorage w1) = [].
Proof. intros Hc Hw Hh. by destruct (handler_coherent ev w w1 Hc Hw Hh). Qed.

Lemma dispatch_consistent (ev : Event) (w : World) :
  consistent (Mounted w) → wired w ev →
  ∃ w', dispatch ev w = (Normal (), w') ∧ consistent (Mounted w').
Proof.
  intros (Hc & Hsync & Hflag) Hwired. unfold dispatch. cbv [mbind M_bind].
  destruct (handler_spec ev w) as (w1 & Hh & Hslot & _ & Hset).
  pose proof (handler_coherent ev w w1 Hc Hwired Hh) as Hc1.
  rewrite Hh, runEffects_eq.
  destruct Hc1 as (Hf1 & Hm1 & Hn1 & Hcur1 & Hq1).
  rewrite nextFault_faultFree, tick_faultFree by done.
  destruct (queueSet w1) eqn:Hq.
  - eexists. split; [done|]. cbn [consistent]. split_and!; try done.
  - destruct Hset as [?|[_ Hsame]]; [done|].
    eexists. split; [done|]. cbn [consistent]. split_and!; try done.
    by rewrite Hslot, Hsync, Hsame.
Qed.

Lemma mount_consistent (ls : LocalStorage) :
  consistent (Unmounted ls) →
  ∃ w', mount (mkWorld initialApp ls false) = (Normal (), w')
        ∧ consistent (Mounted w').
Proof.
  intros [Hf Hrefs].
  destruct (mount_faultFree ls Hf)
    as (w' & Hm & Hh & Hc & Hq & _ & _ & Hhs & Hqs & Hflag & Hf').
  exists w'. split; [done|]. cbn [consistent]. split_and!; try done.
  - unfold coherent. rewrite Hh, Hc, Hq. split_and!.
    + done.
    + unfold storedHistory. by rewrite Hhs.
    + by destruct (storedHistory ls).
    + intros c Hhd. by apply head_Some_elem_of.
    + done.
  - by rewrite Hqs, Hq.
Qed.

Lemma act_consistent (fs : list bool) (p : Page) :
  wiredReachable fs p → fs = [] → consistent p.
Proof.
  induction 1 as [|p _ IH|ev w _ IH Hwired]; intros ->.
  - split; [done|]. intros item Hin. by apply elem_of_nil in Hin.
  - specialize (IH eq_refl). cbn [act].
    destruct (mount_consistent (storageOf p)) as (w' & -> & Hc'); [|done].
    destruct p as [w|ls]; [|done]. destruct IH as (Hc & Hsync & _).
    destruct Hc as (Hf & Hm & _ & _ & Hq). cbn [storageOf]. split; [done|].
    intros item. unfold storedQueue. rewrite Hsync, <- Hm. apply Hq.
  - specialize (IH eq_refl). cbn [act].
    by destruct (dispatch_consistent ev w IH Hwired) as (w' & -> & Hc').
Qed.

(** X18.  On every mounted page reached, without storage faults, from a
    browser that holds neither key, through loads of the page and events of
    the rendered page: the history is the stored list; there is a current
    entry exactly when the history is not empty, and it is an entry of the
    history; the entry of every item of the print queue is an entry of the
    history; the stored print queue is the print queue. *)
Theorem page_consistent (w : World) :
  wiredReachable [] (Mounted w) →
  history (app w) = storedHistory (localStorage w)
  ∧ (currentEntry (app w) = None ↔ history (app w) = [])
  ∧ (∀ c, currentEntry (app w) = Some c → c ∈ history (app w))
  ∧ (∀ item, item ∈ printQueue (app w) → entry item ∈ history (app w))
  ∧ barcodegen_print_queue (localStorage w) = Some (Doc (printQueue (app w))).
Proof.
  intros Hr. destruct (act_consistent [] _ Hr eq_refl) as (Hc & Hsync & _).
  destruct Hc as (_ & Hm & Hnone & Hcur & Hq).
  split_and!; try done. split; [done|].
  intros Hempty. destruct (currentEntry (app w)) as [c|] eqn:Hc; [|done].
  specialize (Hcur c eq_refl). rewrite Hempty in Hcur.
  by apply elem_of_nil in Hcur.
Qed.

(** ** The page under any faults *)













(** X10.  When the write of the store fails, a successful
    [generateUniqueCode] still shows its success message and puts the entry
    in the history and in the current selection, but the stored string is
    the one before the call: when the history was the stored list, the new
    entry is not stored, and [getHistory] returns the list without it as
    soon as the storage reads again. *)
Theorem generateUniqueCode_unsaved (draws : nat → Q) (now : Z)
    (w w' : World) (e : BarcodeEntry) :
  nextFault (tick (localStorage w)) = true →
  generateUniqueCode draws now w = (Normal (Some e), w') →
  statusMessage (app w') = Some (success, "Generated " +:+ id e)
  ∧ e ∈ history (app w')
  ∧ currentEntry (app w') = Some e
  ∧ barcodegen_history_v1 (localStorage w') = barcodegen_history_v1 (localStorage w)
  ∧ (history (app w) = storedHistory (localStorage w) →
     (id e ∉ ids (storedHistory (localStorage w')))
     ∧ (nextFault (localStorage w') = false →
        (getHistory (localStorage w')).1 = Normal (history (app w)))).
Proof.
  intros Hw. rewrite generateUniqueCode_eq. cbv zeta.
  destruct (probe maxAttempts _ draws 0 "") as [[code isUnique] attempts] eqn:Hp.
  cbn [fst snd]. destruct isUnique; [|done].
  intros [= <- <-]. cbn [id app history currentEntry statusMessage localStorage].
  apply probe_unique in Hp as (Hfresh & _).
  rewrite saveEntry_eq. cbv zeta. rewrite Hw. cbn [snd].
  split_and!; try done; [left|].
  intros Hmirror. split.
  - change (storedHistory (tick (tick (localStorage w))))
      with (storedHistory (localStorage w)).
    rewrite <- Hmirror. intros Hin. apply Hfresh. by apply elem_of_list_to_set.
  - intros Hread. rewrite getHistory_eq, Hread. cbn [fst].
    by rewrite Hmirror.
Qed.

(** * The further properties at concrete inputs *)

Lemma deleteEntry_removes_witness :
  (deleteEntry "111111111"
     (mkStorage (Some (Doc (Arr [entryA; entryB]))) None [])).1
  = Normal [entryB].
Proof.
  destruct (deleteEntry_removes "111111111"
              (mkStorage (Some (Doc (Arr [entryA; entryB]))) None []))
    as (Hr & _).
  - split; reflexivity.
  - rewrite Hr. vm_compute. reflexivity.
Defined.

Lemma saveEntry_deleteEntry_roundtrip_witness :
  storedHistory
    (deleteEntry (id entryA)
       (saveEntry entryA (mkStorage (Some (Doc (Arr [entryB]))) None [])).2).2
  = [entryB].
Proof.
  destruct (saveEntry_deleteEntry_roundtrip entryA
              (mkStorage (Some (Doc (Arr [entryB]))) None []))
    as (_ & _ & Hfresh).
  - reflexivity.
  - destruct Hfresh as [_ Hs]; [|exact Hs].
    vm_compute. intros H. inversion H as [|? ? ? H']; subst.
    inversion H'.
Defined.

Lemma saveEntry_twice_order_witness :
  (getHistory (saveEntry entryB (saveEntry entryA (freshStorage [])).2).2).1
  = Normal [entryB; entryA].
Proof.
  rewrite (saveEntry_twice_order entryA entryB (freshStorage [])).
  - reflexivity.
  - reflexivity.
  - discriminate.
Defined.

Lemma clearHistory_empties_witness :
  (getHistory (clearHistory (localStorage (sampleWorld []))).2).1 = Normal [].
Proof.
  destruct (clearHistory_empties (localStorage (sampleWorld []))) as [H _].
  destruct H as (_ & _ & Hg); [reflexivity|exact Hg].
Defined.

Lemma read_fault_overwrites_history_witness :
  barcodegen_history_v1
    (saveEntry entryB
       (mkStorage (Some (Doc (Arr [entryA]))) None [true])).2
  = Some (Doc (Arr [entryB])).
Proof.
  destruct (read_fault_overwrites_history entryB "111111111"
              (mkStorage (Some (Doc (Arr [entryA]))) None [true]))
    as [Hs _]; [reflexivity|reflexivity|exact Hs].
Defined.

Lemma generateUniqueCode_first_fresh_witness :
  ∃ e w', generateUniqueCode (λ i, if i is O then 0 else 1 # 2)%Q 1700000000000
            (mkWorld (mkApp [mkEntry "100000000" 0 None CODE128] None "" None [])
                     (freshStorage []) false)
          = (Normal (Some e), w')
          ∧ id e = "550000000".
Proof.
  destruct (generateUniqueCode_first_fresh
              (λ i, if i is O then 0 else 1 # 2)%Q 1700000000000
              (mkWorld (mkApp [mkEntry "100000000" 0 None CODE128] None "" None [])
                       (freshStorage []) false) 1)
    as (_ & e & w' & Hr & Hid).
  - unfold maxAttempts. lia.
  - intros j Hj. assert (j = 0%nat) as -> by lia. vm_compute. left.
  - vm_compute. intros H. inversion H as [|? ? ? H']; subst. inversion H'.
  - exists e, w'. split; [exact Hr|]. rewrite Hid. vm_compute. reflexivity.
Defined.

Lemma generateUniqueCode_persists_witness :
  (getHistory (localStorage
     (generateUniqueCode (λ _, 1 # 2)%Q 1700000000000 (sampleWorld [])).2)).1
  = Normal [mkEntry "550000000" 1700000000000 None CODE128; entryA; entryB].
Proof.
  destruct (generateUniqueCode_persists (λ _, 1 # 2)%Q 1700000000000
              (sampleWorld [])
              (generateUniqueCode (λ _, 1 # 2)%Q 1700000000000 (sampleWorld [])).2
              (mkEntry "550000000" 1700000000000 None CODE128))
    as (_ & _ & Hm).
  - reflexivity.
  - vm_compute. reflexivity.
  - destruct Hm as [_ Hg]; [reflexivity|exact Hg].
Defined.

Lemma generateUniqueCode_resets_label_witness :
  label (mkEntry "600000000" 1700000000500 None CODE128) = None.
Proof.
  pose (w := mkWorld (mkApp [] None "Asset 1" None []) (freshStorage []) false).
  pose (r1 := generateUniqueCode (λ _, 1 # 2)%Q 1700000000000 w).
  pose (r2 := generateUniqueCode (λ _, 5 # 9)%Q 1700000000500 r1.2).
  destruct (generateUniqueCode_resets_label (λ _, 1 # 2)%Q (λ _, 5 # 9)%Q
              1700000000000 1700000000500 w r1.2 r2.2
              (mkEntry "550000000" 1700000000000 (Some "Asset 1") CODE128)
              (mkEntry "600000000" 1700000000500 None CODE128))
    as (_ & _ & Hnext).
  - vm_compute. reflexivity.
  - destruct Hnext as [Hl _]; [vm_compute; reflexivity|exact Hl].
Defined.

Lemma generateUniqueCode_label_trimmed_witness :
  ∃ pre post, "  Asset 1 " = pre +:+ ("Asset 1" +:+ post)
              ∧ allWhiteSpace pre = true ∧ allWhiteSpace post = true.
Proof.
  pose (w := mkWorld (mkApp [] None "  Asset 1 " None []) (freshStorage []) false).
  pose proof (generateUniqueCode_label_trimmed (λ _, 1 # 2)%Q 1700000000000 w
                (generateUniqueCode (λ _, 1 # 2)%Q 1700000000000 w).2
                (mkEntry "550000000" 1700000000000 (Some "Asset 1") CODE128))
    as H.
  destruct H as (_ & Hdec & _).
  - vm_compute. reflexivity.
  - exact Hdec.
Defined.

Lemma generateUniqueCode_unsaved_witness :
  (getHistory (localStorage
     (generateUniqueCode (λ _, 1 # 2)%Q 1700000000000
        (sampleWorld [false; true])).2)).1
  = Normal [entryA; entryB].
Proof.
  destruct (generateUniqueCode_unsaved (λ _, 1 # 2)%Q 1700000000000
              (sampleWorld [false; true])
              (generateUniqueCode (λ _, 1 # 2)%Q 1700000000000
                 (sampleWorld [false; true])).2
              (mkEntry "550000000" 1700000000000 None CODE128))
    as (_ & _ & _ & _ & Hm).
  - reflexivity.
  - vm_compute. reflexivity.
  - destruct Hm as [_ Hg]; [reflexivity|]. apply Hg. reflexivity.
Defined.

Lemma removeFromQueue_removes_witness :
  length (printQueue (app (removeFromQueue "p0q8m4z7c1700000002000"
                             (sampleWorld [])).2)) = 2%nat.
Proof.
  destruct (removeFromQueue_removes "p0q8m4z7c1700000002000" (sampleWorld []))
    as (_ & _ & _ & _ & _ & Hone & _).
  assert (S (length (printQueue (app (removeFromQueue "p0q8m4z7c1700000002000"
                                        (sampleWorld [])).2))) = 3%nat) as H.
  { apply Hone.
    - unfold distinctPrintIds. vm_compute.
      repeat (apply NoDup_cons_2; [intros Hin; repeat (inversion Hin as [|? ? ? Hin']; subst; clear Hin; rename Hin' into Hin)|]).
      apply NoDup_nil_2.
    - vm_compute. right. left. }
  lia.
Defined.

Lemma addToPrintQueue_removeFromQueue_roundtrip_witness :
  printQueue (app ((addToPrintQueue (Some entryB) "z9y8x7w6v" 1700000009000;;
                    removeFromQueue ("z9y8x7w6v" +:+ toString 1700000009000))
                     (sampleWorld [])).2)
  = sampleQueue.
Proof.
  destruct (addToPrintQueue_removeFromQueue_roundtrip entryB "z9y8x7w6v"
              1700000009000 (sampleWorld []))
    as (_ & Hq & _).
  - simpl. lia.
  - vm_compute. intros Hin.
    repeat (inversion Hin as [|? ? ? Hin']; subst; clear Hin; rename Hin' into Hin).
  - exact Hq.
Defined.

Lemma handleDelete_resynchronises_witness :
  let w := mkWorld (mkApp [entryA; entryB] (Some entryA) "" None [])
                   (mkStorage (Some (Doc (Arr [entryB]))) None []) false in
  history (app (handleDelete "333333333" true w).2) = [entryB].
Proof.
  intros w.
  destruct (handleDelete_resynchronises "333333333" w) as (Hh & _).
  - split; reflexivity.
  - rewrite Hh. vm_compute. reflexivity.
Defined.

Lemma mount_restores_witness :
  ∃ w', mount (mkWorld initialApp (localStorage (sampleWorld [])) false)
        = (Normal (), w')
        ∧ history (app w') = [entryA; entryB]
        ∧ currentEntry (app w') = Some entryA
        ∧ printQueue (app w') = sampleQueue.
Proof.
  destruct (mount_restores (localStorage (sampleWorld [])))
    as (w' & Hm & Hh & Hc & Hq & _).
  - reflexivity.
  - exists w'. split; [exact Hm|]. split; [exact Hh|]. split; [exact Hc|exact Hq].
Defined.

Lemma effects_propagate_faults_witness :
  (loadEffect (mkWorld initialApp (localStorage (sampleWorld [true; true])) false)).1
  = Throw DOMException
  ∧ (dispatch (AddToSheet (Some entryA) "z9y8x7w6v" 1700000009000)
       (sampleWorld [true])).1
    = Throw DOMException.
Proof.
  split.
  - destruct (effects_propagate_faults
                (mkWorld initialApp (localStorage (sampleWorld [true; true])) false))
      as [Hload _].
    destruct Hload as [Hr _]; [reflexivity|exact Hr].
  - destruct (effects_propagate_faults (sampleWorld [true])) as [_ Hp].
    destruct Hp as [_ Hd]; [reflexivity|].
    destruct (Hd entryA "z9y8x7w6v" 1700000009000) as [Hr _]; [simpl; lia|exact Hr].
Defined.


Lemma handlePrint_prints_something_witness :
  (handlePrint sheet emptyWorld).1 = Normal false
  ∧ printQueue (app (handlePrint sheet emptyWorld).2) = [].
Proof.
  destruct (handlePrint_prints_something sheet emptyWorld) as (_ & _ & Hno).
  destruct Hno as (_ & _ & _ & Hq & _); [reflexivity|].
  split; [reflexivity|exact Hq].
Defined.


Lemma page_consistent_witness :
  ∃ w, act (UI (Generate (λ _, 1 # 2)%Q 1700000000000))
           (act Open (Unmounted (freshStorage [])))
       = Mounted w
       ∧ history (app w) = storedHistory (localStorage w).
Proof.
  eexists. split; [vm_compute; reflexivity|].
  match goal with
  | |- history (app ?w0) = _ =>
      destruct (page_consistent w0) as (Hm & _); [|exact Hm]
  end.
  match goal with
  | |- wiredReachable _ ?p =>
      change (wiredReachable []
        (act (UI (Generate (λ _, 1 # 2)%Q 1700000000000))
             (act Open (Unmounted (freshStorage [])))))
  end.
  assert (wiredReachable [] (act Open (Unmounted (freshStorage []))))
    as Hopen by (apply wiredReachable_open, wiredReachable_fresh).
  revert Hopen.
  change (act Open (Unmounted (freshStorage [])))
    with (Mounted (mkWorld initialApp
                     (mkStorage None (Some (Doc [])) []) false)).
  intros Hopen. apply wiredReachable_ui; [exact Hopen|].
  intros i. split; [discriminate|reflexivity].
Defined.
